(** * kube-images: image-reference normalisation and the multi-context scanner

    A shallow embedding of [src/kube-images.py] and the properties of its
    reference parser, per-namespace aggregation, pod pagination and
    multi-context orchestration.

    Modelling conventions.
    - A Python [str] is a [string]; every character stands for the code point
      of the same number (U+0000 .. U+00FF).  On that range [str.lower],
      [str.isspace] and the ordering of strings are the per-character tables
      written out below; the regular expressions of the source only name
      ASCII classes.
    - [Optional[str]] is [option string]; Python truthiness of a string
      ([x or ""], [if digest:]) is written out with [truthy].
    - The dictionaries whose iteration order reaches the output (the
      per-namespace buckets) are association lists in insertion order; the
      dictionaries indexed by context name are [gmap string _]. *)

From Stdlib Require Import Ascii String List NArith Arith Lia Bool.
From Stdlib Require Import Sorting.Sorted Sorting.Permutation.
From stdpp Require Import gmap strings list fin_maps.
Import ListNotations.

(** ** Characters and the builtin string methods *)

Module Py.

Definition code (c : ascii) : N := N_of_ascii c.

Definition between (lo hi c : ascii) : bool :=
  ((code lo <=? code c) && (code c <=? code hi))%N.

Definition is_upper (c : ascii) : bool := between "A" "Z" c.
Definition is_lower (c : ascii) : bool := between "a" "z" c.
Definition is_digit (c : ascii) : bool := between "0" "9" c.

(** [[A-Za-z]] *)
Definition is_alpha (c : ascii) : bool := is_upper c || is_lower c.
(** [[A-Za-z0-9]] *)
Definition is_alnum (c : ascii) : bool := is_alpha c || is_digit c.
(** [[A-Fa-f0-9]] *)
Definition is_hex (c : ascii) : bool :=
  between "A" "F" c || between "a" "f" c || is_digit c.

(** [str.isspace] on one character: TAB..CR, FS..US, space, NEL, NBSP. *)
Definition isspace (c : ascii) : bool :=
  between "009" "013" c || between "028" "032" c
  || Ascii.eqb c "133" || Ascii.eqb c "160".

(** [str.lower] on one character: A-Z and the Latin-1 capitals
    U+00C0..U+00DE (without the multiplication sign U+00D7). *)
Definition lower_char (c : ascii) : ascii :=
  if is_upper c || between "192" "214" c || between "216" "222" c
  then ascii_of_N (code c + 32) else c.

Fixpoint lower (s : string) : string :=
  match s with
  | EmptyString => EmptyString
  | String c r => String (lower_char c) (lower r)
  end.

(** Truthiness of a string: non-empty. *)
Definition truthy (s : string) : bool :=
  match s with EmptyString => false | String _ _ => true end.

(** [x or ""] for an optional string. *)
Definition or_empty (x : option string) : string :=
  match x with Some s => s | None => "" end.

(** [x or y] where [x] is an optional string. *)
Definition or_else (x : option string) (y : string) : string :=
  match x with
  | Some s => if truthy s then s else y
  | None => y
  end.

Fixpoint lstrip (s : string) : string :=
  match s with
  | EmptyString => EmptyString
  | String c r => if isspace c then lstrip r else s
  end.

Fixpoint rstrip (s : string) : string :=
  match s with
  | EmptyString => EmptyString
  | String c r =>
      match rstrip r with
      | EmptyString => if isspace c then EmptyString else String c EmptyString
      | r' => String c r'
      end
  end.

(** [s.strip()] *)
Definition strip (s : string) : string := rstrip (lstrip s).

(** Longest prefix of characters in the class [p], and what follows it. *)
Fixpoint take_while (p : ascii -> bool) (s : string) : string :=
  match s with
  | EmptyString => EmptyString
  | String c r => if p c then String c (take_while p r) else EmptyString
  end.

Fixpoint drop_while (p : ascii -> bool) (s : string) : string :=
  match s with
  | EmptyString => EmptyString
  | String c r => if p c then drop_while p r else s
  end.

(** Longest prefix in the class [p] of at most [n] characters (a greedy
    bounded repetition [p{..,n}]). *)
Fixpoint take_upto (n : nat) (p : ascii -> bool) (s : string) : string :=
  match n, s with
  | S n', String c r => if p c then String c (take_upto n' p r) else EmptyString
  | _, _ => EmptyString
  end.

Fixpoint contains (p : ascii -> bool) (s : string) : bool :=
  match s with
  | EmptyString => false
  | String c r => p c || contains p r
  end.

(** [s.rsplit(d, 1)[-1]]: what follows the last [d], or [s] when there is
    none. *)
Fixpoint after_last (d : ascii) (s : string) : string :=
  match s with
  | EmptyString => EmptyString
  | String c r =>
      if contains (Ascii.eqb d) r then after_last d r
      else if Ascii.eqb c d then r else s
  end.

(** [s.split(d, 1)[0]]: what precedes the first [d]. *)
Definition before_first (d : ascii) (s : string) : string :=
  take_while (fun c => negb (Ascii.eqb c d)) s.

End Py.

(** ** Models *)

Record ContainerImage : Type := {
  ref : string;
  name : string;
  digest : option string
}.

(** One entry of [containerStatuses]: what [status.get("image")] and
    [status.get("imageID")] return. *)
Record ContainerStatus : Type := {
  status_image : option string;
  status_imageID : option string
}.

(** One entry of [spec.containers]: what [container.get("image")] returns. *)
Record ContainerSpec : Type := {
  container_image : option string
}.

(** A pod as the scanner reads it.  A missing key and a [null] value both
    read as [None]. *)
Record Pod : Type := {
  metadata_namespace : option string;
  containerStatuses : option (list ContainerStatus);
  initContainerStatuses : option (list ContainerStatus);
  ephemeralContainerStatuses : option (list ContainerStatus);
  spec_containers : option (list ContainerSpec)
}.

(** ** Parsing and normalisation *)

Module ImageReferenceParser.
Import Py.

(** [[A-Za-z0-9_+.\-]], the algorithm class of both digest patterns. *)
Definition is_algo_char (c : ascii) : bool :=
  is_alnum c || Ascii.eqb c "_" || Ascii.eqb c "+" || Ascii.eqb c "."
  || Ascii.eqb c "-".

(** [[a-zA-Z0-9+.\-]], the tail class of the scheme pattern. *)
Definition is_scheme_char (c : ascii) : bool :=
  is_alnum c || Ascii.eqb c "+" || Ascii.eqb c "." || Ascii.eqb c "-".

(** [([A-Za-z0-9_+.\-]+):([A-Fa-f0-9]{32,128})] matched at the head of
    [s]; the two groups.  The colon is outside the first class and nothing
    follows the second group, so the greedy choice is the only one the
    matcher can succeed with. *)
Definition match_digest (s : string) : option (string * string) :=
  match take_while is_algo_char s, drop_while is_algo_char s with
  | String a algo, String c rest =>
      let hexd := take_upto 128 is_hex rest in
      if Ascii.eqb c ":" && (32 <=? String.length hexd)
      then Some (String a algo, hexd) else None
  | _, _ => None
  end.

(** [_DIGEST_RE.search(s)]: the groups of the leftmost match. *)
Fixpoint DIGEST_RE_search (s : string) : option (string * string) :=
  match match_digest s with
  | Some g => Some g
  | None =>
      match s with
      | EmptyString => None
      | String _ r => DIGEST_RE_search r
      end
  end.

(** [_AT_DIGEST_RE.search(s)], as a truth value. *)
Fixpoint AT_DIGEST_RE_search (s : string) : bool :=
  match s with
  | EmptyString => false
  | String c r =>
      (Ascii.eqb c "@" && bool_decide (is_Some (match_digest r)))
      || AT_DIGEST_RE_search r
  end.

(** [_SCHEME_RE.sub("", s)] with [_SCHEME_RE = ^[a-zA-Z][a-zA-Z0-9+.\-]*://]:
    the pattern is anchored, so at most the one leading match goes. *)
Definition strip_scheme (s : string) : string :=
  match s with
  | EmptyString => s
  | String c r =>
      if is_alpha c then
        match drop_while is_scheme_char r with
        | String x (String y (String z tail)) =>
            if Ascii.eqb x ":" && Ascii.eqb y "/" && Ascii.eqb z "/"
            then tail else s
        | _ => s
        end
      else s
  end.

Definition is_valid_image_ref (image : option string) : bool :=
  let s := strip_scheme (strip (or_empty image)) in
  match s with
  | EmptyString => false
  | String c _ =>
      if Ascii.eqb c ":" || Ascii.eqb c "@" then false
      else
        let name_part :=
          take_while (fun x => negb (Ascii.eqb x "@" || Ascii.eqb x ":")) s in
        contains is_alnum name_part
  end.

Fixpoint extract_digest (candidates : list (option string)) : option string :=
  match candidates with
  | [] => None
  | candidate :: more =>
      if truthy (or_empty candidate) then
        match DIGEST_RE_search (or_empty candidate) with
        | Some (algo, hexd) => Some (algo +:+ ":" +:+ hexd)
        | None => extract_digest more
        end
      else extract_digest more
  end.

Definition short_name (image_ref : string) : string :=
  if truthy image_ref then
    let no_scheme := strip_scheme image_ref in
    let tail := after_last "/" no_scheme in
    let tail := before_first "@" tail in
    let tail := if contains (Ascii.eqb ":") tail
                then before_first ":" tail else tail in
    if truthy tail then tail else "unknown"
  else "unknown".

Definition compose_reference (image : string) (digest : option string) : string :=
  let normalized := strip_scheme image in
  if AT_DIGEST_RE_search normalized then normalized
  else
    match digest with
    | Some d => if truthy d then normalized +:+ "@" +:+ d else normalized
    | None => normalized
    end.

Definition uniqueness_key (ref : string) (digest : option string) : string :=
  lower (or_else digest ref).

(** The body of the loop of [from_statuses]: [None] is [continue]. *)
Definition image_of_status (status : ContainerStatus) : option ContainerImage :=
  let image := strip_scheme (or_empty (status_image status)) in
  let image_id := strip_scheme (or_empty (status_imageID status)) in
  if is_valid_image_ref (Some image) then
    let digest := extract_digest [Some image_id; Some image] in
    let ref := compose_reference image digest in
    let name := short_name (if truthy ref then ref else image) in
    Some {| ref := ref; name := name; digest := digest |}
  else None.

Definition from_statuses (statuses : option (list ContainerStatus))
  : list ContainerImage :=
  match statuses with
  | None => []
  | Some l => omap image_of_status l
  end.

(** The body of the loop of [from_container_specs]. *)
Definition image_of_spec (container : ContainerSpec) : option ContainerImage :=
  let image := strip_scheme (or_empty (container_image container)) in
  if is_valid_image_ref (Some image) then
    let digest := extract_digest [Some image] in
    let ref := compose_reference image digest in
    let name := short_name (if truthy ref then ref else image) in
    Some {| ref := ref; name := name; digest := digest |}
  else None.

Definition from_container_specs (containers : option (list ContainerSpec))
  : list ContainerImage :=
  match containers with
  | None => []
  | Some l => omap image_of_spec l
  end.

End ImageReferenceParser.

(** ** Insertion-ordered dictionaries

    A Python [dict] iterates in insertion order; the buckets of
    [scan_single_context] are read back through [.values()] and [.items()],
    so they are kept as association lists with at most one pair per key. *)

Module ODict.
Section Defs.
Context {V : Type}.

Fixpoint get (k : string) (d : list (string * V)) : option V :=
  match d with
  | [] => None
  | (k', v) :: r => if String.eqb k' k then Some v else get k r
  end.

(** [d[k] = v]: rebinding keeps the position of the key, a new key goes
    last. *)
Fixpoint set (k : string) (v : V) (d : list (string * V)) : list (string * V) :=
  match d with
  | [] => [(k, v)]
  | (k', v') :: r =>
      if String.eqb k' k then (k, v) :: r else (k', v') :: set k v r
  end.

(** [d.setdefault(k, v)]: the dictionary afterwards. *)
Definition setdefault (k : string) (v : V) (d : list (string * V))
  : list (string * V) :=
  match get k d with
  | Some _ => d
  | None => d ++ [(k, v)]
  end.

Definition keys (d : list (string * V)) : list string := map fst d.
Definition values (d : list (string * V)) : list V := map snd d.
End Defs.
End ODict.

(** ** Scanning *)

(** What a call can raise: [ApiException] with its [str(exc)], or any other
    [Exception] with its class name and [str(exc)]. *)
Inductive Raised : Type :=
| ApiException (exc : string)
| OtherException (cls exc : string).

(** One response of [list_pod_for_all_namespaces] after
    [sanitize_for_serialization]: [data.get("items", [])] and
    [(data.get("metadata") or {}).get("continue")]. *)
Record PodList : Type := {
  data_items : list Pod;
  data_continue : option string
}.

(** [{ "<namespace>": [ {ref,name,digest}, ... ] }]; [to_dict] keeps the three
    fields of an image, so the records stand for the dictionaries. *)
Abbreviation NamespaceImages := (list (string * list ContainerImage)).

(** A value of the dictionary [scan_multiple_contexts] returns ([Any] in the
    source): the namespaces of one context, or the error messages. *)
Inductive Entry : Type :=
| Namespaces (r : NamespaceImages)
| Errors (e : gmap string string).

(** The dataclass [ScanResult]. *)
Record ScanResult : Type := {
  contexts : gmap string Entry;
  errors : Entry
}.

Module KubernetesImageScanner.
Import Py ImageReferenceParser.

Definition CONTAINER_STATUS_KEYS : list (Pod -> option (list ContainerStatus)) :=
  [containerStatuses; initContainerStatuses; ephemeralContainerStatuses].

(** [pod.get("metadata").get("namespace") or "default"] *)
Definition namespace_of (pod : Pod) : string :=
  or_else (metadata_namespace pod) "default".

(** [collected] after the loop over [CONTAINER_STATUS_KEYS]. *)
Definition status_images (pod : Pod) : list ContainerImage :=
  flat_map (fun key => from_statuses (key pod)) CONTAINER_STATUS_KEYS.

(** [collected] when the bucket loop starts. *)
Definition collected_images (pod : Pod) : list ContainerImage :=
  let collected := status_images pod in
  match collected with
  | [] => collected ++ from_container_specs (spec_containers pod)
  | _ :: _ => collected
  end.

(** [for image in collected: ns_bucket.setdefault(ukey, image)] *)
Definition add_images (ns_bucket : list (string * ContainerImage))
    (collected : list ContainerImage) : list (string * ContainerImage) :=
  fold_left
    (fun bucket image =>
       ODict.setdefault (uniqueness_key (ref image) (digest image)) image bucket)
    collected ns_bucket.

(** One round of [for pod in pods].  The bucket is the object stored under
    the namespace, so filling it updates [images_by_namespace] in place. *)
Definition add_pod (images_by_namespace : list (string * list (string * ContainerImage)))
    (pod : Pod) : list (string * list (string * ContainerImage)) :=
  let namespace := namespace_of pod in
  let ns_bucket :=
    match ODict.get namespace images_by_namespace with
    | Some bucket => bucket
    | None => []
    end in
  ODict.set namespace (add_images ns_bucket (collected_images pod))
    images_by_namespace.

(** Tuple comparison [(name, ref) < (name', ref')] on strings. *)
Definition key_lt (a b : string * string) : bool :=
  match String.compare a.1 b.1 with
  | Lt => true
  | Gt => false
  | Eq => String.ltb a.2 b.2
  end.

Definition sort_key (x : ContainerImage) : string * string := (name x, ref x).

(** [sorted(xs, key=...)] is stable: an element goes before the first one
    that is not smaller than it. *)
Fixpoint insert_sorted (x : ContainerImage) (l : list ContainerImage)
  : list ContainerImage :=
  match l with
  | [] => [x]
  | y :: r =>
      if key_lt (sort_key y) (sort_key x) then y :: insert_sorted x r
      else x :: l
  end.

Fixpoint sorted (l : list ContainerImage) : list ContainerImage :=
  match l with
  | [] => []
  | x :: r => insert_sorted x (sorted r)
  end.

(** [scan_single_context] from the pod list on (lines 333-362). *)
Definition images_per_namespace (pods : list Pod) : NamespaceImages :=
  let images_by_namespace := fold_left add_pod pods [] in
  map (fun '(namespace, image_map) => (namespace, sorted (ODict.values image_map)))
    images_by_namespace.

(** *** Pagination

    The remote list call is an opaque stateful source: from its state and
    the [_continue] argument it answers with a page or raises. *)
Section Pagination.
Context {St : Type}.
Variable list_pod_for_all_namespaces :
  St -> option string -> (Raised + PodList) * St.

(** What a run of the lister leaves behind: the source, the [_continue]
    arguments of the requests it issued, in order, and how it ended. *)
Record Run (A : Type) : Type := {
  source : St;
  requests : list (option string);
  outcome : Raised + A
}.
Global Arguments source {A} _.
Global Arguments requests {A} _.
Global Arguments outcome {A} _.

(** The [while True] loop, entered with [items] and [continue_token];
    [fuel] bounds the number of requests and [None] is a loop that is
    still running when it is used up. *)
Fixpoint list_loop (fuel : nat) (st : St) (continue_token : option string)
    (items : list Pod) (issued : list (option string))
  : option (Run (list Pod)) :=
  match fuel with
  | O => None
  | S fuel' =>
      match list_pod_for_all_namespaces st continue_token with
      | (inl exc, st') =>
          Some {| source := st'; requests := issued ++ [continue_token];
                  outcome := inl exc |}
      | (inr data, st') =>
          let items := items ++ data_items data in
          let continue_token' := data_continue data in
          if truthy (or_empty continue_token') then
            list_loop fuel' st' continue_token' items (issued ++ [continue_token])
          else
            Some {| source := st'; requests := issued ++ [continue_token];
                    outcome := inr items |}
      end
  end.

Definition list_pods_across_all_namespaces (fuel : nat) (st : St)
  : option (Run (list Pod)) :=
  list_loop fuel st None [] [].

Definition scan_single_context (fuel : nat) (st : St)
  : option (Run NamespaceImages) :=
  match list_pods_across_all_namespaces fuel st with
  | None => None
  | Some run =>
      Some {| source := source run; requests := requests run;
              outcome := match outcome run with
                         | inl exc => inl exc
                         | inr pods => inr (images_per_namespace pods)
                         end |}
  end.
End Pagination.

(** *** Many contexts

    [future_result name] is what [future.result()] gives for the scan of
    context [name]: the namespaces [scan_single_context] returned, or what it
    raised.  The code submits one scan for each element of [names]; taking
    the outcome as a function of the name is exact when no name is listed
    twice (two scans of one context could end differently, and the later one
    to complete would overwrite the earlier).  [completed] is the order in
    which [as_completed] hands the futures back, some permutation of
    [names].  The dictionaries are finite maps: which key is bound to what
    is modelled, the order of the keys (that of completion) is not. *)
Section ManyContexts.
Variable future_result : string -> Raised + NamespaceImages.

Definition record_result (acc : gmap string Entry * gmap string string)
    (name : string) : gmap string Entry * gmap string string :=
  match future_result name with
  | inr r => (<[name := Namespaces r]> acc.1, acc.2)
  | inl (ApiException exc) =>
      (acc.1, <[name := "Kubernetes API error: " +:+ exc]> acc.2)
  | inl (OtherException cls exc) =>
      (acc.1, <[name := "Unexpected error: " +:+ cls +:+ ": " +:+ exc]> acc.2)
  end.

(** [results] and [errors] when the [with] block is left. *)
Definition collect (completed : list string)
  : gmap string Entry * gmap string string :=
  fold_left record_result completed (∅, ∅).

Definition scan_multiple_contexts (names completed : list string)
  : gmap string Entry :=
  match names with
  | [] => ∅
  | _ :: _ =>
      let '(results, errors) := collect completed in
      if decide (errors = ∅) then results
      else <["__errors__" := Errors errors]> results
  end.

(** An empty dictionary is falsy, whatever it was built as. *)
Definition entry_truthy (v : Entry) : bool :=
  match v with
  | Namespaces r => match r with [] => false | _ :: _ => true end
  | Errors e => bool_decide (e ≠ ∅)
  end.

(** [scan_images] without the JSON output: [chosen_contexts] is the
    discovered list when [all_contexts] is set or [contexts] is [None]. *)
Definition scan_images (list_all_context_names : list string)
    (contexts : option (list string)) (all_contexts : bool)
    (completed : list string) : ScanResult :=
  let chosen_contexts :=
    match contexts with
    | Some l => if all_contexts then list_all_context_names else l
    | None => list_all_context_names
    end in
  let raw := scan_multiple_contexts chosen_contexts completed in
  match raw !! "__errors__" with
  | Some v =>
      {| contexts := delete "__errors__" raw;
         errors := if entry_truthy v then v else Errors ∅ |}
  | None => {| contexts := raw; errors := Errors ∅ |}
  end.
End ManyContexts.

End KubernetesImageScanner.

(** ** Locating the kubeconfig *)

Module KubeconfigLocator.
Import Py.

(** [resolve].  What it reads of its surroundings is passed in: [env_path]
    is [os.getenv("KUBECONFIG")], [default_path] is
    [os.path.expanduser("~/.kube/config")] and [default_exists] is
    [os.path.exists(default_path)]. *)
Definition resolve (explicit_path env_path : option string)
    (default_path : string) (default_exists : bool) : option string :=
  if truthy (or_empty explicit_path) then explicit_path
  else if truthy (or_empty env_path) then env_path
  else if default_exists then Some default_path else None.

End KubeconfigLocator.

(** * Vocabulary of the properties

    The notions the statements below are written with, and the pods,
    statuses and sources they are tried on. *)

Import Py ImageReferenceParser KubernetesImageScanner.

(** ** Pods with and without status *)

Definition with_spec_containers (pod : Pod) (containers : option (list ContainerSpec))
  : Pod :=
  {| metadata_namespace := metadata_namespace pod;
     containerStatuses := containerStatuses pod;
     initContainerStatuses := initContainerStatuses pod;
     ephemeralContainerStatuses := ephemeralContainerStatuses pod;
     spec_containers := containers |}.

(** A pod whose three status arrays are empty and that declares one
    container. *)
Definition pending_nginx : Pod :=
  {| metadata_namespace := Some "web";
     containerStatuses := Some [];
     initContainerStatuses := Some [];
     ephemeralContainerStatuses := Some [];
     spec_containers := Some [ {| container_image := Some "nginx:1.25" |} ] |}.

(** A running pod whose declared containers name two more images. *)
Definition running_with_sidecars : Pod :=
  {| metadata_namespace := Some "web";
     containerStatuses :=
       Some [ {| status_image := Some "nginx:1.25"; status_imageID := None |} ];
     initContainerStatuses := None;
     ephemeralContainerStatuses := None;
     spec_containers :=
       Some [ {| container_image := Some "nginx:1.25" |};
              {| container_image := Some "envoy:v1.30" |};
              {| container_image := Some "busybox" |} ] |}.

(** ** Raw references *)

(** [n] is the repository-name part of [r]: what precedes the first [':'] or
    ['@'] of [r], all of [r] when it has neither. *)
Definition repository_part (r n : string) : Prop :=
  (forall c, In c (list_ascii_of_string n) -> c <> ":"%char /\ c <> "@"%char) /\
  (r = n \/
   exists (d : ascii) (rest : string),
     (d = ":"%char \/ d = "@"%char) /\ r = n +:+ String d rest).

(** The rejection rule in words: empty, led by [':'] or ['@'], or without a
    letter or digit in the repository-name part. *)
Definition rejected (r : string) : Prop :=
  r = "" \/
  (exists t, r = String ":" t) \/
  (exists t, r = String "@" t) \/
  (exists n, repository_part r n /\
             forall c, In c (list_ascii_of_string n) -> is_alnum c = false).

Definition not_separator (x : ascii) : bool :=
  negb (Ascii.eqb x "@" || Ascii.eqb x ":").

(** ** Digests and composed references *)

Fixpoint all_in (p : ascii -> bool) (s : string) : bool :=
  match s with
  | EmptyString => true
  | String c r => p c && all_in p r
  end.

(** [s.endswith(suffix)] *)
Fixpoint endswith (s suffix : string) : bool :=
  String.eqb s suffix ||
  match s with
  | EmptyString => false
  | String _ r => endswith r suffix
  end.

(** [d] is written [<algorithm>:<hex>]: a non-empty algorithm name in the
    class of the digest patterns, a colon, at least 32 hexadecimal
    characters. *)
Definition digest_form (d : string) : Prop :=
  exists (a : ascii) (algo hexd : string),
    d = String a algo +:+ ":" +:+ hexd /\
    all_in is_algo_char (String a algo) = true /\
    all_in is_hex hexd = true /\
    32 <= String.length hexd.

(** [r] is the reference composed from [image] and the digest [d]: the
    scheme-stripped image as it is when it already embeds a digest, that
    image followed by ["@"] and [d] otherwise. *)
Definition composed (image d r : string) : Prop :=
  if AT_DIGEST_RE_search (strip_scheme image) then r = strip_scheme image
  else r = strip_scheme image +:+ "@" +:+ d.

(** The image strings the two extractors read, as the entries hold them:
    [status.get("image") or ""] and [container.get("image") or ""]. *)
Definition raw_image_strings (statuses : option (list ContainerStatus))
    (containers : option (list ContainerSpec)) : list string :=
  map (fun status => or_empty (status_image status)) (default [] statuses)
  ++ map (fun container => or_empty (container_image container))
      (default [] containers).

Definition sha_a : string :=
  "sha256:aaaaaaaaaaaaaaaaaaaaaaaaaaaaaaaaaaaaaaaaaaaaaaaaaaaaaaaaaaaaaaaa".
Definition sha_b : string :=
  "sha256:bbbbbbbbbbbbbbbbbbbbbbbbbbbbbbbbbbbbbbbbbbbbbbbbbbbbbbbbbbbbbbbb".

(** A container started from a tag: the runtime reports the digest in
    [imageID]. *)
Definition tagged_status : ContainerStatus :=
  {| status_image := Some "docker.io/library/nginx:1.25";
     status_imageID := Some ("docker-pullable://docker.io/library/nginx@" +:+ sha_a) |}.

(** A container whose image string carries two transport schemes. *)
Definition nested_scheme_status : ContainerStatus :=
  {| status_image := Some "docker-pullable://docker://nginx:1.25";
     status_imageID := Some ("docker-pullable://docker.io/library/nginx@" +:+ sha_a) |}.

(** A container started from a reference pinned by digest, while the runtime
    reports another digest for the image it resolved. *)
Definition pinned_status : ContainerStatus :=
  {| status_image := Some ("ghcr.io/org/app@" +:+ sha_a);
     status_imageID := Some ("ghcr.io/org/app@" +:+ sha_b) |}.

(** ** Paginated sources *)

(** The response carries a continuation token ([if not continue_token]
    fails). *)
Definition has_token (data : PodList) : bool :=
  truthy (or_empty (data_continue data)).

(** [serves remote st tok pages st']: asked with [tok] in state [st], the
    source answers with the first of [pages]; every page but the last carries
    a token, and asked with that token the source answers with the next
    page; the last page carries none and leaves the source in [st']. *)
Inductive serves {St : Type}
    (remote : St -> option string -> (Raised + PodList) * St)
  : St -> option string -> list PodList -> St -> Prop :=
| serves_last (st : St) (tok : option string) (data : PodList) (st' : St) :
    remote st tok = (inr data, st') ->
    has_token data = false ->
    serves remote st tok [data] st'
| serves_more (st : St) (tok : option string) (data : PodList) (st' : St)
    (pages : list PodList) (st'' : St) :
    remote st tok = (inr data, st') ->
    has_token data = true ->
    serves remote st' (data_continue data) pages st'' ->
    serves remote st tok (data :: pages) st''.

(** A pod without containers in the given namespace. *)
Definition bare_pod (namespace : string) : Pod :=
  {| metadata_namespace := Some namespace;
     containerStatuses := None;
     initContainerStatuses := None;
     ephemeralContainerStatuses := None;
     spec_containers := None |}.

Definition page_one : PodList :=
  {| data_items := [bare_pod "a"; bare_pod "b"]; data_continue := Some "T1" |}.
Definition page_two : PodList :=
  {| data_items := [bare_pod "c"; bare_pod "d"]; data_continue := Some "T2" |}.
Definition page_three : PodList :=
  {| data_items := [bare_pod "e"]; data_continue := Some "" |}.

(** A source of three pages of sizes 2, 2 and 1 with the tokens [T1], [T2]
    and [""]; its state counts the requests it has answered, and a cursor it
    never handed out is answered with an error. *)
Definition three_pages (served : nat) (cursor : option string)
  : (Raised + PodList) * nat :=
  (match cursor with
   | None => inr page_one
   | Some tok =>
       if String.eqb tok "T1" then inr page_two
       else if String.eqb tok "T2" then inr page_three
       else inl (ApiException "(410) Gone")
   end, S served).

(** A source whose every response carries the same token. *)
Definition same_token (served : nat) (cursor : option string)
  : (Raised + PodList) * nat :=
  (inr {| data_items := [bare_pod "a"]; data_continue := Some "T" |}, S served).

(** ** Images of a namespace *)

(** The identity key of an image. *)
Definition identity_key (x : ContainerImage) : string :=
  uniqueness_key (ref x) (digest x).

(** The images of the pods of one namespace in the order the scan meets
    them: pods in list order, within a pod the status categories in the
    order of [CONTAINER_STATUS_KEYS] (or the declared containers). *)
Definition extracted (namespace : string) (pods : list Pod) : list ContainerImage :=
  flat_map collected_images
    (List.filter (fun pod => String.eqb (namespace_of pod) namespace) pods).

(** The first image of a list that has the identity key [k]. *)
Definition first_with_key (k : string) (l : list ContainerImage)
  : option ContainerImage :=
  find (fun x => String.eqb (identity_key x) k) l.



Definition status_of (image imageID : string) : ContainerStatus :=
  {| status_image := Some image; status_imageID := Some imageID |}.

Definition running_pod (namespace : string) (statuses : list ContainerStatus) : Pod :=
  {| metadata_namespace := Some namespace;
     containerStatuses := Some statuses;
     initContainerStatuses := None;
     ephemeralContainerStatuses := None;
     spec_containers := None |}.

(** Two pods of one namespace run the same content under two tags; a third
    image differs from a fourth in letter case only. *)
Definition two_tags : list Pod :=
  [ running_pod "prod"
      [ status_of "repo/app:v1" ("docker-pullable://repo/app@" +:+ sha_a);
        status_of "zeta:1" "" ];
    running_pod "prod"
      [ status_of "repo/app:v2" ("docker-pullable://repo/app@" +:+ sha_a);
        status_of "Zeta:1" "";
        status_of "Alpha:3" "" ] ].

(** ** Outcomes of contexts *)

(** The message recorded for a failed context. *)
Definition message (e : Raised) : string :=
  match e with
  | ApiException exc => "Kubernetes API error: " +:+ exc
  | OtherException cls exc => "Unexpected error: " +:+ cls +:+ ": " +:+ exc
  end.

Definition nginx_namespaces : NamespaceImages :=
  [("default", [ {| ref := "nginx:1.25"; name := "nginx"; digest := None |} ])].

(** Every context scans fine but ["b"], which is refused. *)
Definition b_forbidden (name : string) : Raised + NamespaceImages :=
  if String.eqb name "b" then inl (ApiException "(403) Forbidden")
  else inr nginx_namespaces.

(** Every context scans fine. *)
Definition all_fine (name : string) : Raised + NamespaceImages :=
  inr nginx_namespaces.

(** ** Names and schemes *)

(** One of the three characters a short name never holds. *)
Definition is_name_delimiter (c : ascii) : bool :=
  Ascii.eqb c "/" || Ascii.eqb c "@" || Ascii.eqb c ":".

(** [short_name] from the last path segment on: drop what follows the first
    ["@"], then what follows the first [":"], and fall back on ["unknown"]. *)
Definition name_of_segment (tail : string) : string :=
  let tail := before_first "@" tail in
  let tail := if contains (Ascii.eqb ":") tail
              then before_first ":" tail else tail in
  if truthy tail then tail else "unknown".

(** ** Digests, in full *)

(** [d] is [algo], a colon and [hexd], within the bounds of the digest
    pattern: a non-empty algorithm name of the pattern's class and 32 to 128
    hexadecimal characters. *)
Definition digest_parts (d algo hexd : string) : Prop :=
  d = algo +:+ ":" +:+ hexd /\
  truthy algo = true /\
  all_in is_algo_char algo = true /\
  all_in is_hex hexd = true /\
  32 <= String.length hexd <= 128.

(** ** Pods already accounted for *)

(** The buckets hold the namespace of [pod] and, in its bucket, the identity
    key of each of its images. *)
Definition pod_covered (state : list (string * list (string * ContainerImage)))
    (pod : Pod) : Prop :=
  exists bucket,
    ODict.get (namespace_of pod) state = Some bucket /\
    forall img, In img (collected_images pod) ->
                ODict.get (identity_key img) bucket <> None.

(** ** Sources that fail *)

(** [fails_after remote st tok pages exc st']: asked with [tok] in state
    [st], the source serves [pages], each with a token that leads to the
    next, and answers the request that follows the last of them by raising
    [exc], which leaves it in [st']. *)
Inductive fails_after {St : Type}
    (remote : St -> option string -> (Raised + PodList) * St)
  : St -> option string -> list PodList -> Raised -> St -> Prop :=
| fails_now (st : St) (tok : option string) (exc : Raised) (st' : St) :
    remote st tok = (inl exc, st') ->
    fails_after remote st tok [] exc st'
| fails_later (st : St) (tok : option string) (data : PodList) (st' : St)
    (pages : list PodList) (exc : Raised) (st'' : St) :
    remote st tok = (inr data, st') ->
    has_token data = true ->
    fails_after remote st' (data_continue data) pages exc st'' ->
    fails_after remote st tok (data :: pages) exc st''.

(** A source whose first page is fine and whose token has expired when it
    comes back. *)
Definition expired_token (served : nat) (cursor : option string)
  : (Raised + PodList) * nat :=
  (match cursor with
   | None => inr page_one
   | Some _ => inl (ApiException "(410) Gone")
   end, S served).

(** ** Chosen contexts *)

(** [chosen_contexts] of [scan_images]: the discovered contexts when all are
    asked for or none is given, the given ones otherwise. *)
Definition chosen_contexts (discovered : list string)
    (contexts : option (list string)) (all_contexts : bool) : list string :=
  match contexts with
  | Some l => if all_contexts then discovered else l
  | None => discovered
  end.

(** * Properties *)

#[local] Arguments Ascii.eqb : simpl never.
#[local] Arguments String.eqb : simpl never.

(** ** Strings *)

Section StringLemmas.

Lemma append_nil_l (t : string) : "" +:+ t = t.
Proof. reflexivity. Qed.

Lemma append_cons (c : ascii) (s t : string) :
  String c s +:+ t = String c (s +:+ t).
Proof. reflexivity. Qed.

Lemma append_nil_r (s : string) : s +:+ "" = s.
Proof. induction s as [|c s IH]; [reflexivity|]. rewrite append_cons, IH. reflexivity. Qed.

Lemma append_assoc (s t u : string) : (s +:+ t) +:+ u = s +:+ (t +:+ u).
Proof.
  induction s as [|c s IH]; [reflexivity|].
  rewrite !append_cons, IH. reflexivity.
Qed.

Lemma length_append (s t : string) :
  String.length (s +:+ t) = String.length s + String.length t.
Proof.
  induction s as [|c s IH]; [reflexivity|].
  rewrite append_cons. simpl. rewrite IH. reflexivity.
Qed.

Lemma take_drop_while (p : ascii -> bool) (s : string) :
  s = take_while p s +:+ drop_while p s.
Proof.
  induction s as [|c s IH]; [reflexivity|]. simpl.
  destruct (p c); [|reflexivity].
  rewrite append_cons, <- IH. reflexivity.
Qed.

Lemma drop_while_head (p : ascii -> bool) (s : string) (c : ascii) (r : string) :
  drop_while p s = String c r -> p c = false.
Proof.
  induction s as [|a s IH]; simpl; [discriminate|].
  destruct (p a) eqn:Ha; [exact IH|].
  intros [= <- <-]. exact Ha.
Qed.

Lemma contains_false (p : ascii -> bool) (s : string) :
  contains p s = false <->
  (forall c, In c (list_ascii_of_string s) -> p c = false).
Proof.
  induction s as [|a s IH]; simpl.
  - split; [intros _ c []|reflexivity].
  - rewrite orb_false_iff, IH. split.
    + intros [Ha Hs] c [<-|Hc]; auto.
    + intros H. split; [apply H; left; reflexivity|].
      intros c Hc. apply H. right. exact Hc.
Qed.

Lemma lower_char_idem (c : ascii) : lower_char (lower_char c) = lower_char c.
Proof. destruct c as [[] [] [] [] [] [] [] []]; reflexivity. Qed.

Lemma lower_idem (s : string) : lower (lower s) = lower s.
Proof.
  induction s as [|c s IH]; [reflexivity|].
  simpl. rewrite lower_char_idem, IH. reflexivity.
Qed.

Lemma rstrip_keeps_head (c : ascii) (s : string) :
  isspace c = false -> exists r, rstrip (String c s) = String c r.
Proof.
  intros Hc. simpl. destruct (rstrip s) as [|a r].
  - rewrite Hc. eauto.
  - eauto.
Qed.

Lemma strip_keeps_head (c : ascii) (s : string) :
  isspace c = false -> exists r, strip (String c s) = String c r.
Proof.
  intros Hc. unfold strip. cbn [lstrip]. rewrite Hc.
  apply rstrip_keeps_head. exact Hc.
Qed.

End StringLemmas.

(** ** The identity key *)

(** C8.  [uniqueness_key] is the digest when one is present (a non-empty
    string), else the reference, lower-cased in both cases.  The key does not
    see letter case: a reference and its lower-cased form get the same key,
    as do ["Repo/App:v1"] and ["repo/app:v1"].  Two images that carry the
    same digest get the same key whatever their references are. *)
Theorem uniqueness_key_digest_first :
  (forall (r : string) (c : ascii) (d : string),
      uniqueness_key r (Some (String c d)) = lower (String c d)) /\
  (forall r : string, uniqueness_key r None = lower r) /\
  (forall r : string, uniqueness_key (lower r) None = uniqueness_key r None) /\
  uniqueness_key "Repo/App:v1" None = uniqueness_key "repo/app:v1" None /\
  (forall (r1 r2 : string) (c : ascii) (d : string),
      uniqueness_key r1 (Some (String c d)) = uniqueness_key r2 (Some (String c d))).
Proof.
  repeat split.
  - intros r. unfold uniqueness_key. simpl. apply lower_idem.
Qed.

(** ** Status first, declared containers as the fallback *)

(** C9.  When the status arrays of a pod (regular, init, ephemeral) yield at
    least one valid image, the images of the pod are exactly those: the
    declared containers play no part, whatever they are.  When the status
    arrays yield nothing, the images are those of the declared containers;
    a pod with empty status arrays and one declared ["nginx:1.25"] yields the
    single image named ["nginx"] without digest. *)
Theorem spec_fallback_all_or_nothing (pod : Pod) :
  (status_images pod <> [] ->
   forall containers : option (list ContainerSpec),
     collected_images (with_spec_containers pod containers) = status_images pod) /\
  (status_images pod = [] ->
   collected_images pod = from_container_specs (spec_containers pod)) /\
  collected_images pending_nginx =
    [ {| ref := "nginx:1.25"; name := "nginx"; digest := None |} ].
Proof.
  split; [|split].
  - intros Hne containers. unfold collected_images.
    change (status_images (with_spec_containers pod containers))
      with (status_images pod).
    destruct (status_images pod); [contradiction|reflexivity].
  - intros Hnil. unfold collected_images. rewrite Hnil. reflexivity.
  - reflexivity.
Qed.

Lemma spec_fallback_all_or_nothing_witness :
  collected_images running_with_sidecars =
    [ {| ref := "nginx:1.25"; name := "nginx"; digest := None |} ].
Proof.
  pose proof (spec_fallback_all_or_nothing running_with_sidecars) as [H _].
  apply (H ltac:(discriminate) (spec_containers running_with_sidecars)).
Defined.

(** ** Validity of a raw reference *)

Lemma not_separator_true (c : ascii) :
  not_separator c = true <-> c <> ":"%char /\ c <> "@"%char.
Proof.
  unfold not_separator. rewrite negb_true_iff, orb_false_iff.
  rewrite !Ascii.eqb_neq. tauto.
Qed.

Lemma repository_part_take_while (r : string) :
  repository_part r (take_while not_separator r).
Proof.
  split.
  - induction r as [|a r IH]; simpl; [intros c []|].
    destruct (not_separator a) eqn:Ha; simpl; [|intros c []].
    intros c [<-|Hc]; [apply not_separator_true; exact Ha|auto].
  - destruct (drop_while not_separator r) as [|d rest] eqn:Hd.
    + left. rewrite (take_drop_while not_separator r) at 1.
      rewrite Hd. apply append_nil_r.
    + right. exists d, rest. split.
      * apply drop_while_head in Hd.
        destruct (Ascii.eqb_spec d ":"); [left; assumption|].
        destruct (Ascii.eqb_spec d "@"); [right; assumption|].
        assert (not_separator d = true) by (apply not_separator_true; auto).
        congruence.
      * rewrite <- Hd. apply take_drop_while.
Qed.

Lemma repository_part_unique (r n : string) :
  repository_part r n -> n = take_while not_separator r.
Proof.
  revert r. induction n as [|c n IH]; intros r [Hn Hr].
  - destruct Hr as [->|(d & rest & Hd & ->)]; [reflexivity|].
    rewrite append_nil_l. simpl.
    assert (not_separator d = false) as ->; [|reflexivity].
    destruct (not_separator d) eqn:E; [|reflexivity].
    apply not_separator_true in E. destruct Hd; tauto.
  - assert (not_separator c = true) as Hc.
    { apply not_separator_true. apply Hn. left. reflexivity. }
    assert (forall x, In x (list_ascii_of_string n) ->
                      x <> ":"%char /\ x <> "@"%char) as Hn'.
    { intros x Hx. apply Hn. right. exact Hx. }
    destruct Hr as [->|(d & rest & Hd & ->)].
    + simpl. rewrite Hc. f_equal. apply IH. split; [exact Hn'|left; reflexivity].
    + rewrite append_cons. simpl. rewrite Hc. f_equal. apply IH.
      split; [exact Hn'|]. right. exists d, rest. auto.
Qed.

Lemma is_valid_image_ref_unfold (s : string) :
  is_valid_image_ref (Some s) =
  match strip_scheme (strip s) with
  | EmptyString => false
  | String c t =>
      if Ascii.eqb c ":" || Ascii.eqb c "@" then false
      else contains is_alnum (take_while not_separator (String c t))
  end.
Proof.
  unfold is_valid_image_ref. simpl or_empty.
  destruct (strip_scheme (strip s)); reflexivity.
Qed.

(** C7.  [is_valid_image_ref] answers false exactly when the string, trimmed
    and without its leading transport scheme, is empty, starts with [':'] or
    ['@'], or has no letter or digit before its first [':'] or ['@'].  It is
    false on [""], [":"], [":v1.2.3"] and on ["@sha256:"] followed by
    anything, 64 hexadecimal characters included. *)
Theorem is_valid_image_ref_false_iff :
  (forall s : string,
      is_valid_image_ref (Some s) = false <-> rejected (strip_scheme (strip s))) /\
  is_valid_image_ref (Some "") = false /\
  is_valid_image_ref (Some ":") = false /\
  is_valid_image_ref (Some ":v1.2.3") = false /\
  (forall h : string, is_valid_image_ref (Some ("@sha256:" +:+ h)) = false).
Proof.
  split; [|repeat split].
  - intros s. rewrite is_valid_image_ref_unfold.
    destruct (strip_scheme (strip s)) as [|c t] eqn:Hr.
    { split; [left; reflexivity|reflexivity]. }
    destruct (Ascii.eqb_spec c ":") as [->|Hcolon]; simpl orb; cbv iota.
    { split; [|reflexivity]. intros _. right. left. eauto. }
    destruct (Ascii.eqb_spec c "@") as [->|Hat]; cbv iota.
    { split; [|reflexivity]. intros _. right. right. left. eauto. }
    rewrite contains_false. split.
    + intros H. right. right. right.
      exists (take_while not_separator (String c t)).
      split; [apply repository_part_take_while|exact H].
    + intros [H|[[t' H]|[[t' H]|(n & Hn & Hal)]]]; try congruence.
      apply repository_part_unique in Hn. subst n. exact Hal.
  - intros h. rewrite is_valid_image_ref_unfold.
    change ("@sha256:" +:+ h) with (String "@" ("sha256:" +:+ h)).
    destruct (strip_keeps_head "@" ("sha256:" +:+ h) eq_refl) as [r ->].
    reflexivity.
Qed.

(** ** Digests inside references *)

Section DigestLemmas.

Lemma endswith_spec (s suffix : string) :
  endswith s suffix = true <-> exists pre, s = pre +:+ suffix.
Proof.
  induction s as [|c s IH].
  - cbn [endswith]. rewrite orb_false_r, String.eqb_eq. split.
    + intros <-. exists "". reflexivity.
    + intros [[|a pre] H]; [exact H|discriminate].
  - cbn [endswith]. rewrite orb_true_iff, String.eqb_eq, IH. split.
    + intros [<-|[pre ->]]; [exists ""; reflexivity|].
      exists (String c pre). reflexivity.
    + intros [[|a pre] H]; [left; exact H|].
      right. rewrite append_cons in H. injection H as _ ->. eauto.
Qed.

Lemma take_while_all (p : ascii -> bool) (s : string) :
  all_in p (take_while p s) = true.
Proof.
  induction s as [|c s IH]; [reflexivity|]. simpl.
  destruct (p c) eqn:Hc; [|reflexivity]. simpl. rewrite Hc. exact IH.
Qed.

Lemma take_upto_all (n : nat) (p : ascii -> bool) (s : string) :
  all_in p (take_upto n p s) = true.
Proof.
  revert s. induction n as [|n IH]; intros [|c s]; try reflexivity. simpl.
  destruct (p c) eqn:Hc; [|reflexivity]. simpl. rewrite Hc. apply IH.
Qed.

Lemma take_upto_length (n : nat) (p : ascii -> bool) (s : string) :
  all_in p s = true ->
  String.length (take_upto n p s) = Nat.min n (String.length s).
Proof.
  revert s. induction n as [|n IH]; intros [|c s]; try reflexivity. simpl.
  intros [Hc Hs]%andb_prop. rewrite Hc. simpl. rewrite IH by exact Hs.
  reflexivity.
Qed.

Lemma take_while_stop (p : ascii -> bool) (s : string) (c : ascii) (r : string) :
  all_in p s = true -> p c = false ->
  take_while p (s +:+ String c r) = s /\
  drop_while p (s +:+ String c r) = String c r.
Proof.
  intros Hs Hc. induction s as [|a s IH].
  - rewrite append_nil_l. simpl. rewrite Hc. auto.
  - simpl in Hs. apply andb_prop in Hs as [Ha Hs].
    rewrite append_cons. simpl. rewrite Ha.
    destruct (IH Hs) as [-> ->]. auto.
Qed.

(** A string of the digest form is matched by the digest pattern. *)
Lemma match_digest_of_form (d : string) :
  digest_form d -> is_Some (match_digest d).
Proof.
  intros (a & algo & hexd & -> & Halgo & Hhex & Hlen).
  unfold match_digest.
  change (":" +:+ hexd) with (String ":" hexd).
  destruct (take_while_stop is_algo_char (String a algo) ":" hexd Halgo eq_refl)
    as [-> ->].
  rewrite Ascii.eqb_refl, take_upto_length by exact Hhex.
  assert ((32 <=? Nat.min 128 (String.length hexd)) = true) as ->.
  { apply Nat.leb_le. apply Nat.min_glb; [repeat constructor|exact Hlen]. }
  simpl. eauto.
Qed.

(** What the digest pattern matches has the digest form. *)
Lemma match_digest_form (s algo hexd : string) :
  match_digest s = Some (algo, hexd) -> digest_form (algo +:+ ":" +:+ hexd).
Proof.
  unfold match_digest.
  pose proof (take_while_all is_algo_char s) as Hall.
  destruct (take_while is_algo_char s) as [|a al]; [discriminate|].
  destruct (drop_while is_algo_char s) as [|c rest]; [discriminate|].
  destruct (Ascii.eqb c ":"); [|discriminate].
  destruct (32 <=? String.length (take_upto 128 is_hex rest)) eqn:Hlen;
    [|discriminate].
  simpl. intros [= <- <-]. exists a, al, (take_upto 128 is_hex rest).
  repeat split; [exact Hall|apply take_upto_all|].
  apply Nat.leb_le. exact Hlen.
Qed.

Lemma DIGEST_RE_search_form (s algo hexd : string) :
  DIGEST_RE_search s = Some (algo, hexd) -> digest_form (algo +:+ ":" +:+ hexd).
Proof.
  induction s as [|c s IH]; cbn [DIGEST_RE_search].
  - destruct (match_digest "") as [g|] eqn:Hm; [|discriminate].
    intros [= ->]. eapply match_digest_form. exact Hm.
  - destruct (match_digest (String c s)) as [g|] eqn:Hm; [|exact IH].
    intros [= ->]. eapply match_digest_form. exact Hm.
Qed.

(** Every digest [extract_digest] returns has the digest form. *)
Lemma extract_digest_form (candidates : list (option string)) (d : string) :
  extract_digest candidates = Some d -> digest_form d.
Proof.
  induction candidates as [|candidate more IH]; simpl; [discriminate|].
  destruct (truthy (or_empty candidate)); [|exact IH].
  destruct (DIGEST_RE_search (or_empty candidate)) as [[algo hexd]|] eqn:Hs;
    [|exact IH].
  intros [= <-]. eapply DIGEST_RE_search_form. exact Hs.
Qed.

Lemma digest_form_truthy (d : string) : digest_form d -> truthy d = true.
Proof. intros (a & algo & hexd & -> & _). reflexivity. Qed.

(** ["@"] and a matched digest anywhere make [_AT_DIGEST_RE] match. *)
Lemma AT_DIGEST_RE_search_app (s t : string) :
  is_Some (match_digest t) -> AT_DIGEST_RE_search (s +:+ String "@" t) = true.
Proof.
  intros Ht. induction s as [|c s IH].
  - rewrite append_nil_l. simpl. rewrite bool_decide_eq_true_2 by exact Ht.
    reflexivity.
  - rewrite append_cons. simpl. rewrite IH. apply orb_true_r.
Qed.

Lemma AT_DIGEST_RE_search_skip (pre t : string) :
  contains (Ascii.eqb "@") pre = false ->
  AT_DIGEST_RE_search (pre +:+ t) = AT_DIGEST_RE_search t.
Proof.
  induction pre as [|c pre IH]; [reflexivity|]. cbn [contains].
  intros [Hc Hpre]%orb_false_iff. rewrite append_cons.
  cbn [AT_DIGEST_RE_search].
  rewrite Ascii.eqb_sym, Hc, IH by exact Hpre. reflexivity.
Qed.

Lemma take_while_scheme_no_at (s : string) :
  contains (Ascii.eqb "@") (take_while is_scheme_char s) = false.
Proof.
  induction s as [|c s IH]; [reflexivity|]. simpl.
  destruct (is_scheme_char c) eqn:Hc; [|reflexivity]. simpl. rewrite IH.
  destruct (Ascii.eqb_spec "@" c) as [<-|]; [discriminate|reflexivity].
Qed.

(** A stripped scheme is a proper prefix that holds no ["@"]. *)
Lemma strip_scheme_prefix (s : string) :
  strip_scheme s = s \/
  exists pre, s = pre +:+ strip_scheme s /\
              contains (Ascii.eqb "@") pre = false /\
              3 <= String.length pre.
Proof.
  destruct s as [|c r]; [left; reflexivity|]. unfold strip_scheme.
  destruct (is_alpha c) eqn:Hc; [|left; reflexivity].
  pose proof (take_drop_while is_scheme_char r) as Hr.
  pose proof (take_while_scheme_no_at r) as Hat.
  destruct (drop_while is_scheme_char r) as [|x [|y [|z tail]]];
    try (left; reflexivity).
  destruct (Ascii.eqb_spec x ":") as [->|]; [|left; reflexivity].
  destruct (Ascii.eqb_spec y "/") as [->|]; [|left; reflexivity].
  destruct (Ascii.eqb_spec z "/") as [->|]; [|left; reflexivity].
  right. exists (String c (take_while is_scheme_char r +:+ "://")).
  simpl andb. cbv iota. split; [|split].
  - rewrite append_cons, append_assoc. f_equal. exact Hr.
  - simpl.
    assert (Ascii.eqb "@" c = false) as ->.
    { destruct (Ascii.eqb_spec "@" c) as [<-|]; [discriminate|reflexivity]. }
    simpl. clear Hr. induction (take_while is_scheme_char r) as [|a t IH];
      [reflexivity|].
    simpl in Hat. apply orb_false_iff in Hat as [Ha Ht].
    rewrite append_cons. simpl. rewrite Ha. apply IH. exact Ht.
  - simpl. rewrite length_append. simpl. lia.
Qed.

(** Stripping the scheme neither hides nor reveals an embedded digest. *)
Lemma AT_DIGEST_RE_search_strip_scheme (s : string) :
  AT_DIGEST_RE_search (strip_scheme s) = AT_DIGEST_RE_search s.
Proof.
  destruct (strip_scheme_prefix s) as [->|(pre & Hs & Hpre & _)];
    [reflexivity|].
  rewrite Hs at 2. symmetry. apply AT_DIGEST_RE_search_skip. exact Hpre.
Qed.

Lemma drop_while_app (p : ascii -> bool) (s t : string) :
  drop_while p (s +:+ t) =
  match drop_while p s with
  | EmptyString => drop_while p t
  | String x y => String x y +:+ t
  end.
Proof.
  induction s as [|c s IH]; [rewrite append_nil_l; reflexivity|].
  rewrite append_cons. simpl. destruct (p c); [exact IH|reflexivity].
Qed.

(** A reference without scheme stays without scheme when ["@..."] is
    appended. *)
Lemma strip_scheme_app_at (n t : string) :
  strip_scheme n = n ->
  strip_scheme (n +:+ String "@" t) = n +:+ String "@" t.
Proof.
  intros Hn. destruct (strip_scheme_prefix n) as [_|(pre & Hpre & _ & Hlen)].
  2:{ rewrite Hn in Hpre. apply (f_equal String.length) in Hpre.
      rewrite length_append in Hpre. lia. }
  destruct n as [|c r]; [reflexivity|].
  rewrite append_cons. unfold strip_scheme in *.
  destruct (is_alpha c); [|reflexivity].
  rewrite drop_while_app.
  destruct (drop_while is_scheme_char r) as [|x [|y [|z tail]]] eqn:Hd.
  - change (drop_while is_scheme_char (String "@" t)) with (String "@" t).
    destruct t as [|y [|z tail]]; reflexivity.
  - rewrite append_cons, append_nil_l.
    destruct (Ascii.eqb x ":"), t as [|z tail]; reflexivity.
  - rewrite !append_cons, append_nil_l.
    destruct (Ascii.eqb x ":"), (Ascii.eqb y "/"); reflexivity.
  - rewrite !append_cons.
    destruct (Ascii.eqb x ":" && Ascii.eqb y "/" && Ascii.eqb z "/") eqn:E;
      [|reflexivity].
    exfalso. pose proof (take_drop_while is_scheme_char r) as Hr.
    rewrite Hd in Hr. apply (f_equal String.length) in Hr.
    rewrite length_append in Hr. simpl in Hr.
    apply (f_equal String.length) in Hn. simpl in Hn. lia.
Qed.

End DigestLemmas.

(** *** What [compose_reference] returns *)

Lemma compose_reference_composed (image d : string) :
  digest_form d ->
  composed image d (compose_reference image (Some d)) /\
  AT_DIGEST_RE_search (compose_reference image (Some d)) = true.
Proof.
  intros Hd. unfold composed, compose_reference.
  rewrite (digest_form_truthy d Hd).
  destruct (AT_DIGEST_RE_search (strip_scheme image)) eqn:Hat; [auto|].
  split; [reflexivity|].
  apply (AT_DIGEST_RE_search_app (strip_scheme image) d).
  apply match_digest_of_form. exact Hd.
Qed.

Lemma image_of_status_composed (status : ContainerStatus) (img : ContainerImage)
    (d : string) :
  image_of_status status = Some img -> digest img = Some d ->
  composed (strip_scheme (or_empty (status_image status))) d (ref img) /\
  AT_DIGEST_RE_search (ref img) = true.
Proof.
  unfold image_of_status.
  destruct (is_valid_image_ref _); [|discriminate].
  remember (extract_digest _) as dg eqn:Hdg.
  intros [= <-]. cbn [digest ref]. intros ->.
  apply compose_reference_composed. eapply extract_digest_form.
  symmetry. exact Hdg.
Qed.

Lemma image_of_spec_composed (container : ContainerSpec) (img : ContainerImage)
    (d : string) :
  image_of_spec container = Some img -> digest img = Some d ->
  composed (strip_scheme (or_empty (container_image container))) d (ref img) /\
  AT_DIGEST_RE_search (ref img) = true.
Proof.
  unfold image_of_spec.
  destruct (is_valid_image_ref _); [|discriminate].
  remember (extract_digest _) as dg eqn:Hdg.
  intros [= <-]. cbn [digest ref]. intros ->.
  apply compose_reference_composed. eapply extract_digest_form.
  symmetry. exact Hdg.
Qed.

(** C2, as the code has it.  An image produced by [from_statuses] or
    [from_container_specs] whose digest is set has a reference that embeds
    an ["@<algorithm>:<hex>"] digest.  The reference is built from the image
    string of one of the entries read, and the code strips a transport
    scheme from that string twice, once in the extractor and once in
    [compose_reference]: with [normalized] the string after both, the
    reference is [normalized] itself when the image string already embeds a
    digest, whatever digest that is, and otherwise [normalized] followed by
    ["@"] and exactly the digest of the image. *)
Theorem digest_embedded_in_ref
    (statuses : option (list ContainerStatus))
    (containers : option (list ContainerSpec))
    (img : ContainerImage) (d : string) :
  In img (from_statuses statuses ++ from_container_specs containers) ->
  digest img = Some d ->
  AT_DIGEST_RE_search (ref img) = true /\
  exists raw : string,
    In raw (raw_image_strings statuses containers) /\
    let normalized := strip_scheme (strip_scheme raw) in
    if AT_DIGEST_RE_search raw then ref img = normalized
    else ref img = normalized +:+ "@" +:+ d.
Proof.
  intros Hin Hd. apply in_app_or in Hin as [Hin|Hin].
  - destruct statuses as [l|]; [|destruct Hin].
    apply list_elem_of_In, list_elem_of_omap in Hin as (status & Hs & Himg).
    destruct (image_of_status_composed status img d Himg Hd) as [Hc Hat].
    split; [exact Hat|]. exists (or_empty (status_image status)). split.
    + unfold raw_image_strings. apply in_or_app. left. cbn [default].
      apply in_map_iff. exists status. split; [reflexivity|].
      apply list_elem_of_In. exact Hs.
    + unfold composed in Hc. rewrite !AT_DIGEST_RE_search_strip_scheme in Hc.
      exact Hc.
  - destruct containers as [l|]; [|destruct Hin].
    apply list_elem_of_In, list_elem_of_omap in Hin as (container & Hs & Himg).
    destruct (image_of_spec_composed container img d Himg Hd) as [Hc Hat].
    split; [exact Hat|]. exists (or_empty (container_image container)). split.
    + unfold raw_image_strings. apply in_or_app. right. cbn [default].
      apply in_map_iff. exists container. split; [reflexivity|].
      apply list_elem_of_In. exact Hs.
    + unfold composed in Hc. rewrite !AT_DIGEST_RE_search_strip_scheme in Hc.
      exact Hc.
Qed.

Lemma digest_embedded_in_ref_witness :
  AT_DIGEST_RE_search ("nginx:1.25@" +:+ sha_a) = true /\
  exists raw : string,
    In raw (raw_image_strings (Some [nested_scheme_status]) None) /\
    let normalized := strip_scheme (strip_scheme raw) in
    if AT_DIGEST_RE_search raw then "nginx:1.25@" +:+ sha_a = normalized
    else "nginx:1.25@" +:+ sha_a = normalized +:+ "@" +:+ sha_a.
Proof.
  apply (digest_embedded_in_ref (Some [nested_scheme_status]) None
           {| ref := "nginx:1.25@" +:+ sha_a;
              name := "nginx"; digest := Some sha_a |} sha_a).
  - left. reflexivity.
  - reflexivity.
Defined.

(** C2 fails as stated: [from_statuses] yields an image whose digest is set
    and whose reference does not end with ["@"] and that digest. *)
Lemma digest_suffix_counterexample :
  exists (img : ContainerImage) (d : string),
    In img (from_statuses (Some [pinned_status])) /\
    digest img = Some d /\
    ~ (exists pre, ref img = pre +:+ "@" +:+ d).
Proof.
  exists {| ref := "ghcr.io/org/app@" +:+ sha_a; name := "app";
            digest := Some sha_b |}, sha_b.
  split; [left; reflexivity|]. split; [reflexivity|].
  intros H%endswith_spec. vm_compute in H. discriminate.
Qed.

(** *** Composing twice *)

(** C6, as the code has it.  For a valid image whose scheme-stripped form
    does not start with a further transport scheme, and a digest of the form
    [<algorithm>:<hex>], composing a second time changes nothing.  A
    reference that already embeds an ["@<algorithm>:<hex>"] digest comes back
    scheme-stripped and otherwise unchanged, whatever digest is supplied. *)
Theorem compose_reference_idempotent :
  (forall image d : string,
      is_valid_image_ref (Some image) = true ->
      digest_form d ->
      strip_scheme (strip_scheme image) = strip_scheme image ->
      compose_reference (compose_reference image (Some d)) (Some d)
      = compose_reference image (Some d)) /\
  (forall (image : string) (digest : option string),
      AT_DIGEST_RE_search image = true ->
      compose_reference image digest = strip_scheme image).
Proof.
  split.
  - intros image d _ Hd Hn.
    destruct (compose_reference_composed image d Hd) as [Hc Hat].
    unfold composed in Hc.
    assert (strip_scheme (compose_reference image (Some d))
            = compose_reference image (Some d)) as Hs.
    { destruct (AT_DIGEST_RE_search (strip_scheme image));
        rewrite Hc; [exact Hn|].
      apply (strip_scheme_app_at (strip_scheme image) d). exact Hn. }
    unfold compose_reference at 1. rewrite Hs, Hat. reflexivity.
  - intros image digest Hat. unfold compose_reference.
    rewrite AT_DIGEST_RE_search_strip_scheme, Hat. reflexivity.
Qed.

Lemma sha_a_digest_form : digest_form sha_a.
Proof.
  exists "s"%char, "ha256",
    "aaaaaaaaaaaaaaaaaaaaaaaaaaaaaaaaaaaaaaaaaaaaaaaaaaaaaaaaaaaaaaaa".
  repeat split. apply Nat.leb_le. reflexivity.
Qed.

Lemma compose_reference_idempotent_witness :
  compose_reference (compose_reference "docker://nginx:1.25" (Some sha_a)) (Some sha_a)
  = compose_reference "docker://nginx:1.25" (Some sha_a)
  /\ compose_reference ("containerd://ghcr.io/org/app@" +:+ sha_b) (Some sha_a)
     = "ghcr.io/org/app@" +:+ sha_b.
Proof.
  destruct compose_reference_idempotent as [Hidem Hkeep]. split.
  - apply Hidem; [reflexivity|exact sha_a_digest_form|reflexivity].
  - apply (Hkeep ("containerd://ghcr.io/org/app@" +:+ sha_b) (Some sha_a)).
    reflexivity.
Defined.

(** C6 fails as stated: a valid image that carries two transport schemes
    loses one of them at each composition. *)
Lemma compose_reference_nested_scheme :
  is_valid_image_ref (Some "docker-pullable://docker://nginx:1.25") = true /\
  digest_form sha_a /\
  compose_reference "docker-pullable://docker://nginx:1.25" (Some sha_a)
  = "docker://nginx:1.25@" +:+ sha_a /\
  compose_reference
    (compose_reference "docker-pullable://docker://nginx:1.25" (Some sha_a))
    (Some sha_a)
  = "nginx:1.25@" +:+ sha_a /\
  compose_reference
    (compose_reference "docker-pullable://docker://nginx:1.25" (Some sha_a))
    (Some sha_a)
  <> compose_reference "docker-pullable://docker://nginx:1.25" (Some sha_a).
Proof.
  split; [reflexivity|]. split; [exact sha_a_digest_form|].
  split; [reflexivity|]. split; [reflexivity|].
  vm_compute. discriminate.
Qed.

(** ** Pagination *)

Section ListerProperties.
Context {St : Type}.
Variable remote : St -> option string -> (Raised + PodList) * St.

Lemma serves_nonempty (st : St) (tok : option string) (pages : list PodList)
    (st' : St) :
  serves remote st tok pages st' -> pages <> [].
Proof. intros []; discriminate. Qed.

(** The loop, entered anywhere, against a source that serves [pages]. *)
Lemma list_loop_serves (st : St) (tok : option string) (pages : list PodList)
    (st' : St) :
  serves remote st tok pages st' ->
  forall (fuel : nat) (items : list Pod) (issued : list (option string)),
    length pages <= fuel ->
    list_loop remote fuel st tok items issued =
    Some {| source := st';
            requests := issued ++ tok :: map data_continue (removelast pages);
            outcome := inr (items ++ flat_map data_items pages) |}.
Proof.
  induction 1 as [st tok data st' Hr Ht|st tok data st' pages st'' Hr Ht Hs IH];
    intros [|fuel] items issued Hfuel; simpl in Hfuel; try lia.
  - cbn [list_loop]. rewrite Hr. unfold has_token in Ht. rewrite Ht.
    simpl. rewrite app_nil_r. reflexivity.
  - cbn [list_loop]. rewrite Hr. unfold has_token in Ht. rewrite Ht.
    rewrite IH by lia.
    pose proof (serves_nonempty _ _ _ _ Hs) as Hne.
    destruct pages as [|page pages]; [contradiction|].
    cbn [removelast map flat_map]. rewrite <- !app_assoc. reflexivity.
Qed.

(** The loop returns at the first response without token. *)
Lemma list_loop_stops (fuel : nat) (st : St) (tok : option string)
    (items : list Pod) (issued : list (option string)) (data : PodList) (st' : St) :
  remote st tok = (inr data, st') ->
  has_token data = false ->
  list_loop remote (S fuel) st tok items issued =
  Some {| source := st'; requests := issued ++ [tok];
          outcome := inr (items ++ data_items data) |}.
Proof.
  intros Hr Ht. cbn [list_loop]. rewrite Hr. unfold has_token in Ht.
  rewrite Ht. reflexivity.
Qed.

(** Against a source that always hands out a token the loop is still running
    whatever the number of requests it was given. *)
Lemma list_loop_runs_on (fuel : nat) :
  (forall st tok, exists data st',
      remote st tok = (inr data, st') /\ has_token data = true) ->
  forall (st : St) (tok : option string) (items : list Pod)
         (issued : list (option string)),
    list_loop remote fuel st tok items issued = None.
Proof.
  intros Halways. induction fuel as [|fuel IH]; intros st tok items issued;
    [reflexivity|].
  destruct (Halways st tok) as (data & st' & Hr & Ht).
  cbn [list_loop]. rewrite Hr. unfold has_token in Ht. rewrite Ht. apply IH.
Qed.

End ListerProperties.

(** C5.  Against a source that serves a finite sequence of pages, the last
    one without continuation token, the lister returns the items of all
    pages in page order.  Its first request carries no cursor, each further
    request the token of the page before, and no request follows the page
    without token: there are as many requests as pages, and the source is
    left as it was after the last page. *)
Theorem lister_accumulates_all_pages {St : Type}
    (remote : St -> option string -> (Raised + PodList) * St)
    (st st' : St) (pages : list PodList) (fuel : nat) :
  serves remote st None pages st' ->
  length pages <= fuel ->
  list_pods_across_all_namespaces remote fuel st =
  Some {| source := st';
          requests := None :: map data_continue (removelast pages);
          outcome := inr (flat_map data_items pages) |}
  /\ length (None :: map data_continue (removelast pages)) = length pages.
Proof.
  intros Hs Hfuel. split.
  - unfold list_pods_across_all_namespaces.
    rewrite (list_loop_serves remote st None pages st' Hs) by exact Hfuel.
    reflexivity.
  - apply serves_nonempty in Hs. simpl. rewrite length_map.
    destruct pages as [|p pages] using rev_ind; [contradiction|].
    rewrite removelast_last, length_app. simpl. lia.
Qed.

Lemma three_pages_serves :
  serves three_pages 0 None [page_one; page_two; page_three] 3.
Proof.
  eapply serves_more; [reflexivity|reflexivity|].
  eapply serves_more; [reflexivity|reflexivity|].
  eapply serves_last; reflexivity.
Qed.

(** Three pages of sizes 2, 2 and 1 with the tokens [T1], [T2] and [""]:
    five items, three requests. *)
Lemma lister_accumulates_all_pages_witness :
  list_pods_across_all_namespaces three_pages 8 0 =
  Some {| source := 3;
          requests := [None; Some "T1"; Some "T2"];
          outcome := inr [bare_pod "a"; bare_pod "b"; bare_pod "c";
                          bare_pod "d"; bare_pod "e"] |}
  /\ length [None; Some "T1"; Some "T2"] = 3.
Proof.
  apply (lister_accumulates_all_pages three_pages 0 3
           [page_one; page_two; page_three] 8 three_pages_serves).
  simpl. lia.
Defined.

(** C4, as the code has it.  The loop returns at the first response whose
    continuation token is empty or absent, whatever came before.  It keeps no
    record of the tokens it has seen: against a source whose every response
    carries a token, the same one or not, it is still requesting after any
    number of requests. *)
Theorem lister_stops_only_without_token {St : Type}
    (remote : St -> option string -> (Raised + PodList) * St) :
  (forall (fuel : nat) (st : St) (tok : option string) (items : list Pod)
          (issued : list (option string)) (data : PodList) (st' : St),
      remote st tok = (inr data, st') ->
      has_token data = false ->
      list_loop remote (S fuel) st tok items issued =
      Some {| source := st'; requests := issued ++ [tok];
              outcome := inr (items ++ data_items data) |}) /\
  ((forall st tok, exists data st',
       remote st tok = (inr data, st') /\ has_token data = true) ->
   forall (fuel : nat) (st : St),
     list_pods_across_all_namespaces remote fuel st = None).
Proof.
  split.
  - intros fuel st tok items issued data st'. apply list_loop_stops.
  - intros Halways fuel st. apply list_loop_runs_on. exact Halways.
Qed.

Lemma same_token_always :
  forall (st : nat) (tok : option string), exists data st',
    same_token st tok = (inr data, st') /\ has_token data = true.
Proof. intros st tok. eexists _, _. split; reflexivity. Qed.

Lemma lister_stops_only_without_token_witness :
  list_loop three_pages 1 2 (Some "T2") [bare_pod "a"] [None; Some "T1"] =
  Some {| source := 3; requests := [None; Some "T1"; Some "T2"];
          outcome := inr [bare_pod "a"; bare_pod "e"] |}
  /\ list_pods_across_all_namespaces same_token 1000 0 = None.
Proof.
  split.
  - apply (proj1 (lister_stops_only_without_token three_pages) 0 2 (Some "T2")
             [bare_pod "a"] [None; Some "T1"] page_three 3);
      reflexivity.
  - apply (proj2 (lister_stops_only_without_token same_token)
             same_token_always 1000 0).
Defined.

(** C4 fails as stated: against the source that repeats one token the lister
    never returns, whatever the number of requests it is allowed. *)
Lemma lister_repeated_token_counterexample :
  ~ (exists (fuel : nat) (run : Run (list Pod)),
        list_pods_across_all_namespaces same_token fuel 0 = Some run).
Proof.
  intros (fuel & run & H). unfold list_pods_across_all_namespaces in H.
  rewrite (list_loop_runs_on same_token fuel same_token_always) in H.
  discriminate.
Qed.

(** ** Insertion-ordered dictionaries *)

Section ODictLemmas.
Context {V : Type}.
Implicit Types (d : list (string * V)) (k : string) (v : V).

Lemma get_None_keys k d : ODict.get k d = None <-> ~ In k (ODict.keys d).
Proof.
  induction d as [|[k' v'] d IH]; simpl; [tauto|].
  destruct (String.eqb_spec k' k) as [->|Hne].
  - split; [discriminate|]. intros H. exfalso. apply H. left. reflexivity.
  - rewrite IH. split; [intros H [?|?]; [congruence|tauto]|tauto].
Qed.

Lemma get_Some_In k v d : ODict.get k d = Some v -> In (k, v) d.
Proof.
  induction d as [|[k' v'] d IH]; simpl; [discriminate|].
  destruct (String.eqb_spec k' k) as [->|Hne].
  - intros [= ->]. left. reflexivity.
  - intros H. right. apply IH. exact H.
Qed.

Lemma In_get_Some k v d :
  NoDup (ODict.keys d) -> In (k, v) d -> ODict.get k d = Some v.
Proof.
  induction d as [|[k' v'] d IH]; simpl; [intros _ []|].
  intros [Hk Hd]%NoDup_cons [[= -> ->]|Hin].
  - rewrite String.eqb_refl. reflexivity.
  - destruct (String.eqb_spec k' k) as [->|Hne]; [|apply IH; assumption].
    exfalso. apply Hk. apply list_elem_of_In, in_map_iff. exists (k, v). auto.
Qed.

Lemma get_set_eq k v d : ODict.get k (ODict.set k v d) = Some v.
Proof.
  induction d as [|[k' v'] d IH]; simpl.
  - rewrite String.eqb_refl. reflexivity.
  - destruct (String.eqb_spec k' k) as [->|Hne]; simpl.
    + rewrite String.eqb_refl. reflexivity.
    + destruct (String.eqb_spec k' k); [contradiction|exact IH].
Qed.

Lemma get_set_ne k k' v d :
  k <> k' -> ODict.get k' (ODict.set k v d) = ODict.get k' d.
Proof.
  intros Hne. induction d as [|[k0 v0] d IH]; simpl.
  - destruct (String.eqb_spec k k'); [contradiction|reflexivity].
  - destruct (String.eqb_spec k0 k) as [->|Hk0]; simpl.
    + destruct (String.eqb_spec k k'); [contradiction|reflexivity].
    + rewrite IH. reflexivity.
Qed.

Lemma keys_set_In k k' v d :
  In k' (ODict.keys (ODict.set k v d)) -> k' = k \/ In k' (ODict.keys d).
Proof.
  induction d as [|[k0 v0] d IH]; simpl.
  - intros [<-|[]]. left. reflexivity.
  - destruct (String.eqb_spec k0 k) as [->|Hk0]; simpl.
    + tauto.
    + intros [<-|H]; [tauto|]. destruct (IH H); tauto.
Qed.

Lemma keys_set_NoDup k v d :
  NoDup (ODict.keys d) -> NoDup (ODict.keys (ODict.set k v d)).
Proof.
  induction d as [|[k0 v0] d IH]; simpl.
  - intros _. apply NoDup_singleton.
  - intros [Hk Hd]%NoDup_cons.
    destruct (String.eqb_spec k0 k) as [->|Hk0]; simpl.
    + apply NoDup_cons. split; assumption.
    + apply NoDup_cons. split; [|apply IH; exact Hd].
      intros [->|H]%list_elem_of_In%keys_set_In; [congruence|].
      apply Hk, list_elem_of_In. exact H.
Qed.

End ODictLemmas.

(** ** Buckets *)

Section BucketLemmas.
Implicit Types (bucket : list (string * ContainerImage)) (x y : ContainerImage).



Lemma add_images_app (l1 l2 : list ContainerImage) bucket :
  add_images (add_images bucket l1) l2 = add_images bucket (l1 ++ l2).
Proof. unfold add_images. rewrite fold_left_app. reflexivity. Qed.


Lemma get_app_one (k k' : string) y bucket :
  ODict.get k (bucket ++ [(k', y)]) =
  match ODict.get k bucket with
  | Some v => Some v
  | None => if String.eqb k' k then Some y else None
  end.
Proof.
  induction bucket as [|[k0 v0] b IH]; simpl; [reflexivity|].
  destruct (String.eqb k0 k); [reflexivity|exact IH].
Qed.

(** What a bucket holds once a list of images went through it: what it held
    before, and of each identity key it did not know the first image of the
    list that has it. *)
Lemma add_images_values (collected : list ContainerImage) bucket x :
  In x (ODict.values (add_images bucket collected)) <->
  In x (ODict.values bucket) \/
  (ODict.get (identity_key x) bucket = None /\
   first_with_key (identity_key x) collected = Some x).
Proof.
  revert bucket. induction collected as [|y l IH]; intros bucket.
  - simpl. split; [tauto|]. intros [H|[_ H]]; [exact H|discriminate].
  - change (add_images bucket (y :: l))
      with (add_images (ODict.setdefault (identity_key y) y bucket) l).
    rewrite IH. unfold first_with_key. cbn [find].
    fold (first_with_key (identity_key x) l).
    unfold ODict.setdefault.
    destruct (ODict.get (identity_key y) bucket) as [v|] eqn:Hy.
    + destruct (String.eqb_spec (identity_key y) (identity_key x)) as [E|E];
        [|tauto].
      rewrite <- E, Hy. split; (intros [H|[H _]]; [tauto|discriminate]).
    + unfold ODict.values. rewrite map_app, in_app_iff, get_app_one. simpl.
      fold (ODict.values bucket).
      destruct (String.eqb_spec (identity_key y) (identity_key x)) as [E|E].
      * rewrite <- E, Hy. split.
        -- intros [[H|[<-|[]]]|[H _]]; [tauto| |discriminate].
           right. split; reflexivity.
        -- intros [H|[_ [= <-]]]; tauto.
      * assert (y <> x) as Hne by congruence.
        destruct (ODict.get (identity_key x) bucket); tauto.
Qed.

End BucketLemmas.

(** ** The order of the output *)

Section OrderLemmas.

Lemma compare_refl (s : string) : String.compare s s = Eq.
Proof.
  induction s as [|c s IH]; [reflexivity|]. simpl.
  unfold Ascii.compare. rewrite N.compare_refl. exact IH.
Qed.

Lemma ltb_leb_ne (a b : string) :
  String.ltb a b = true <-> String.leb a b = true /\ a <> b.
Proof.
  unfold String.ltb, String.leb. split.
  - destruct (String.compare a b) eqn:C; try discriminate. intros _.
    split; [reflexivity|]. intros ->. rewrite compare_refl in C. discriminate.
  - intros [Hle Hne]. destruct (String.compare a b) eqn:C;
      [|reflexivity|discriminate].
    apply String.compare_eq_iff in C. contradiction.
Qed.

Lemma leb_trans (a b c : string) :
  String.leb a b = true -> String.leb b c = true -> String.leb a c = true.
Proof.
  intros Hab Hbc. apply Is_true_true.
  change (String.le a c). transitivity b; apply Is_true_true; assumption.
Qed.


Lemma leb_ltb_trans (a b c : string) :
  String.leb a b = true -> String.ltb b c = true -> String.ltb a c = true.
Proof.
  intros Hab [Hbc Hne]%ltb_leb_ne. apply ltb_leb_ne. split.
  - eapply leb_trans; eassumption.
  - intros ->. apply Hne. apply String.leb_antisym; assumption.
Qed.





Lemma insert_sorted_perm (x : ContainerImage) (l : list ContainerImage) :
  Permutation (insert_sorted x l) (x :: l).
Proof.
  induction l as [|y l IH]; simpl; [reflexivity|].
  destruct (key_lt (sort_key y) (sort_key x)); [|reflexivity].
  rewrite IH. apply perm_swap.
Qed.

Lemma sorted_perm (l : list ContainerImage) : Permutation (sorted l) l.
Proof.
  induction l as [|x l IH]; simpl; [reflexivity|].
  rewrite insert_sorted_perm, IH. reflexivity.
Qed.



End OrderLemmas.

(** ** One context *)

Section AggregationLemmas.
Implicit Types (state : list (string * list (string * ContainerImage))).

Lemma extracted_cons (namespace : string) (pod : Pod) (pods : list Pod) :
  extracted namespace (pod :: pods) =
  (if String.eqb (namespace_of pod) namespace then collected_images pod else [])
  ++ extracted namespace pods.
Proof.
  unfold extracted. cbn [List.filter].
  destruct (String.eqb (namespace_of pod) namespace); reflexivity.
Qed.

Lemma add_pod_keys state (pod : Pod) :
  NoDup (ODict.keys state) -> NoDup (ODict.keys (add_pod state pod)).
Proof. apply keys_set_NoDup. Qed.

Lemma fold_add_pod_keys (pods : list Pod) state :
  NoDup (ODict.keys state) -> NoDup (ODict.keys (fold_left add_pod pods state)).
Proof.
  revert state. induction pods as [|pod pods IH]; intros state Hnd;
    [exact Hnd|].
  apply IH, add_pod_keys, Hnd.
Qed.

(** The bucket of a namespace after the loop over the pods: the bucket it
    had, filled with the images of the pods of that namespace in order. *)
Lemma fold_add_pod_get (pods : list Pod) state (namespace : string)
    (bucket : list (string * ContainerImage)) :
  ODict.get namespace (fold_left add_pod pods state) = Some bucket ->
  bucket = add_images (default [] (ODict.get namespace state))
             (extracted namespace pods).
Proof.
  revert state. induction pods as [|pod pods IH]; intros state.
  - cbn [fold_left]. intros ->. reflexivity.
  - cbn [fold_left]. intros H. apply IH in H. rewrite H, extracted_cons.
    unfold add_pod.
    destruct (String.eqb_spec (namespace_of pod) namespace) as [->|Hne].
    + rewrite get_set_eq. rewrite <- add_images_app.
      destruct (ODict.get namespace state); reflexivity.
    + rewrite get_set_ne by exact Hne. reflexivity.
Qed.

Lemma images_per_namespace_In (pods : list Pod) (namespace : string)
    (imgs : list ContainerImage) :
  In (namespace, imgs) (images_per_namespace pods) ->
  exists bucket,
    bucket = add_images [] (extracted namespace pods) /\
    imgs = sorted (ODict.values bucket).
Proof.
  unfold images_per_namespace. intros H.
  apply in_map_iff in H as ([ns image_map] & [= -> <-] & Hin).
  exists image_map. split; [|reflexivity].
  apply In_get_Some in Hin; [|apply fold_add_pod_keys; constructor].
  apply fold_add_pod_get in Hin. exact Hin.
Qed.

End AggregationLemmas.

(** Against a source that serves [pages], a scan of the context returns the
    images per namespace of the pods of all pages. *)
Lemma scan_single_context_serves {St : Type}
    (remote : St -> option string -> (Raised + PodList) * St)
    (st st' : St) (pages : list PodList) (fuel : nat) :
  serves remote st None pages st' ->
  length pages <= fuel ->
  exists run : Run NamespaceImages,
    scan_single_context remote fuel st = Some run /\
    source run = st' /\
    outcome run = inr (images_per_namespace (flat_map data_items pages)).
Proof.
  intros Hs Hfuel. unfold scan_single_context, list_pods_across_all_namespaces.
  rewrite (list_loop_serves remote st None pages st' Hs) by exact Hfuel.
  eexists. split; [reflexivity|]. split; reflexivity.
Qed.



(** ** Many contexts *)

Section ManyContextsLemmas.
Variable future_result : string -> Raised + NamespaceImages.

Lemma fold_record_result (completed : list string)
    (acc : gmap string Entry * gmap string string) (name : string) :
  let out := fold_left (record_result future_result) completed acc in
  out.1 !! name =
    match future_result name with
    | inr r => if decide (name ∈ completed) then Some (Namespaces r)
               else acc.1 !! name
    | inl _ => acc.1 !! name
    end /\
  out.2 !! name =
    match future_result name with
    | inl e => if decide (name ∈ completed) then Some (message e)
               else acc.2 !! name
    | inr _ => acc.2 !! name
    end.
Proof.
  revert acc. induction completed as [|c completed IH]; intros acc.
  - cbn [fold_left]. destruct (future_result name); split; reflexivity.
  - cbn [fold_left]. specialize (IH (record_result future_result acc c)).
    cbv zeta in *. destruct IH as [IH1 IH2]. rewrite IH1, IH2. clear IH1 IH2.
    unfold record_result.
    destruct (decide (c = name)) as [->|Hne].
    + destruct (future_result name) as [[exc|cls exc]|r]; cbn [fst snd];
        rewrite ?lookup_insert_eq;
        rewrite (decide_True (P := name ∈ name :: completed)) by set_solver;
        destruct (decide (name ∈ completed)); split; reflexivity.
    + assert (name ∈ c :: completed <-> name ∈ completed) as Hin.
      { rewrite elem_of_cons. split; [intros [E|?]; [congruence|assumption]|auto]. }
      destruct (future_result c) as [[exc|cls exc]|r]; cbn [fst snd];
        rewrite ?lookup_insert_ne by exact Hne;
        destruct (future_result name) as [e|r'];
        destruct (decide (name ∈ completed)) as [H|H];
        try rewrite (decide_True (P := name ∈ c :: completed)) by tauto;
        try rewrite (decide_False (P := name ∈ c :: completed)) by tauto;
        split; reflexivity.
Qed.

(** [results] after the futures: the contexts that came back with a result. *)
Lemma collect_results (completed : list string) (name : string) :
  (collect future_result completed).1 !! name =
  match future_result name with
  | inr r => if decide (name ∈ completed) then Some (Namespaces r) else None
  | inl _ => None
  end.
Proof.
  destruct (fold_record_result completed (∅, ∅) name) as [H _].
  unfold collect. rewrite H. cbn [fst]. rewrite lookup_empty. reflexivity.
Qed.

(** [errors] after the futures: the contexts whose scan raised. *)
Lemma collect_errors (completed : list string) (name : string) :
  (collect future_result completed).2 !! name =
  match future_result name with
  | inl e => if decide (name ∈ completed) then Some (message e) else None
  | inr _ => None
  end.
Proof.
  destruct (fold_record_result completed (∅, ∅) name) as [_ H].
  unfold collect. rewrite H. cbn [snd]. rewrite lookup_empty. reflexivity.
Qed.

(** No context is in both dictionaries the futures are sorted into. *)
Lemma collect_disjoint (completed : list string) (name : string) :
  (collect future_result completed).1 !! name = None \/
  (collect future_result completed).2 !! name = None.
Proof.
  rewrite collect_results, collect_errors.
  destruct (future_result name); auto.
Qed.

Lemma scan_multiple_contexts_unfold (names completed : list string) :
  names <> [] ->
  scan_multiple_contexts future_result names completed =
  if decide ((collect future_result completed).2 = ∅)
  then (collect future_result completed).1
  else <["__errors__" := Errors (collect future_result completed).2]>
         (collect future_result completed).1.
Proof.
  intros Hne. unfold scan_multiple_contexts.
  destruct names; [contradiction|].
  destruct (collect future_result completed). reflexivity.
Qed.

(** The returned dictionary binds the reserved key to the error messages
    exactly when some context failed. *)
Lemma scan_multiple_contexts_errors (names completed : list string) :
  Permutation names completed ->
  (exists errs, scan_multiple_contexts future_result names completed
                !! "__errors__" = Some (Errors errs)) <->
  (exists name e, name ∈ names /\ future_result name = inl e).
Proof.
  intros Hperm. destruct names as [|n names].
  { apply Permutation_nil in Hperm as ->. cbn. split.
    - intros [errs H]. rewrite lookup_empty in H. discriminate.
    - intros (name & e & H & _). set_solver. }
  rewrite scan_multiple_contexts_unfold by discriminate.
  destruct (decide ((collect future_result completed).2 = ∅)) as [He|He].
  - split.
    + intros [errs H]. rewrite collect_results in H.
      destruct (future_result "__errors__"); [discriminate|].
      destruct (decide _); discriminate.
    + intros (name & e & Hin & Hf). exfalso.
      pose proof (collect_errors completed name) as H.
      rewrite He, lookup_empty, Hf in H. rewrite Hperm in Hin.
      rewrite decide_True in H by exact Hin. discriminate.
  - split; [intros _|intros _; rewrite lookup_insert_eq; eauto].
    apply map_choose in He as (name & msg & H).
    rewrite collect_errors in H.
    destruct (future_result name) as [e|] eqn:Hf; [|discriminate].
    destruct (decide (name ∈ completed)) as [Hin|]; [|discriminate].
    exists name, e. rewrite Hperm. auto.
Qed.

(** As long as no context bears the reserved name, the returned dictionary
    keeps the two outcomes apart: a context whose scan returned is bound to
    its namespaces and has no message, a context whose scan raised has its
    message under the reserved key and no binding of its own, whatever the
    other contexts did. *)
Lemma scan_multiple_contexts_partition (names completed : list string)
    (name : string) :
  Permutation names completed ->
  "__errors__" ∉ names ->
  name ∈ names ->
  match future_result name with
  | inr r =>
      scan_multiple_contexts future_result names completed !! name
      = Some (Namespaces r) /\
      forall errs,
        scan_multiple_contexts future_result names completed !! "__errors__"
        = Some (Errors errs) -> errs !! name = None
  | inl e =>
      scan_multiple_contexts future_result names completed !! name = None /\
      exists errs,
        scan_multiple_contexts future_result names completed !! "__errors__"
        = Some (Errors errs) /\ errs !! name = Some (message e)
  end.
Proof.
  intros Hperm Hres Hin.
  assert (name <> "__errors__") as Hname by (intros ->; contradiction).
  assert (names <> []) as Hne by (intros ->; set_solver).
  rewrite scan_multiple_contexts_unfold by exact Hne.
  pose proof (collect_results completed name) as Hr.
  pose proof (collect_errors completed name) as He.
  rewrite Hperm in Hin.
  destruct (future_result name) as [e|r] eqn:Hf.
  - rewrite decide_True in He by exact Hin.
    destruct (decide _) as [Hempty|_].
    { rewrite Hempty, lookup_empty in He. discriminate. }
    rewrite lookup_insert_ne by congruence. rewrite lookup_insert_eq.
    split; [exact Hr|eauto].
  - rewrite decide_True in Hr by exact Hin.
    destruct (decide _) as [Hempty|_].
    + split; [exact Hr|]. intros errs H. rewrite collect_results in H.
      destruct (future_result "__errors__"); [discriminate|].
      destruct (decide ("__errors__" ∈ completed)) as [H'|]; [|discriminate].
      rewrite <- Hperm in H'. contradiction.
    + rewrite lookup_insert_ne by congruence. rewrite lookup_insert_eq.
      split; [exact Hr|]. intros errs [= <-]. exact He.
Qed.

End ManyContextsLemmas.

(** The contexts ["a"], ["b"] and ["c"], of which ["b"] is refused, in any
    order of completion: ["a"] and ["c"] have their namespaces, ["b"] has
    none and is the one entry of the error messages. *)
Lemma scan_three_contexts (completed : list string) :
  Permutation ["a"; "b"; "c"] completed ->
  let raw := scan_multiple_contexts b_forbidden ["a"; "b"; "c"] completed in
  raw !! "a" = Some (Namespaces nginx_namespaces) /\
  raw !! "c" = Some (Namespaces nginx_namespaces) /\
  raw !! "b" = None /\
  raw !! "__errors__" =
    Some (Errors {[ "b" := "Kubernetes API error: (403) Forbidden" ]}).
Proof.
  intros Hperm raw.
  assert ("__errors__" ∉ ["a"; "b"; "c"]) as Hres.
  { intros H. repeat (apply elem_of_cons in H as [H|H]; [discriminate|]).
    inversion H. }
  pose proof (scan_multiple_contexts_partition b_forbidden _ _ "a" Hperm Hres
                ltac:(set_solver)) as [Ha _].
  pose proof (scan_multiple_contexts_partition b_forbidden _ _ "c" Hperm Hres
                ltac:(set_solver)) as [Hc _].
  pose proof (scan_multiple_contexts_partition b_forbidden _ _ "b" Hperm Hres
                ltac:(set_solver)) as [Hb (errs & He & Hmsg)].
  repeat split; try assumption.
  subst raw. rewrite He. do 2 f_equal.
  rewrite scan_multiple_contexts_unfold in He by discriminate.
  destruct (decide _) as [Hempty|_].
  { rewrite collect_results in He. cbn in He.
    destruct (decide _); discriminate. }
  rewrite lookup_insert_eq in He. injection He as <-.
  apply map_eq. intros k. rewrite collect_errors. unfold b_forbidden.
  destruct (String.eqb_spec k "b") as [->|Hk].
  - rewrite lookup_singleton_eq.
    assert ("b" ∈ completed) as Hin by (rewrite <- Hperm; set_solver).
    rewrite decide_True by exact Hin. reflexivity.
  - rewrite lookup_singleton_ne by congruence. reflexivity.
Qed.

(** C1, where the code departs from it.  With the contexts ["__errors__"]
    and ["b"], the first one scanned with success and the second one
    refused, the returned dictionary holds the error messages under
    ["__errors__"] and nothing else, in either order of completion: the
    namespaces of the context named ["__errors__"] are gone, removed by the
    failure of ["b"]. *)
Theorem reserved_name_result_lost :
  b_forbidden "__errors__" = inr nginx_namespaces /\
  b_forbidden "b" = inl (ApiException "(403) Forbidden") /\
  scan_multiple_contexts b_forbidden ["__errors__"; "b"] ["__errors__"; "b"]
  = {[ "__errors__" := Errors {[ "b" := "Kubernetes API error: (403) Forbidden" ]} ]} /\
  scan_multiple_contexts b_forbidden ["__errors__"; "b"] ["b"; "__errors__"]
  = {[ "__errors__" := Errors {[ "b" := "Kubernetes API error: (403) Forbidden" ]} ]} /\
  scan_images b_forbidden [] (Some ["__errors__"; "b"]) false ["__errors__"; "b"]
  = {| contexts := ∅;
       errors := Errors {[ "b" := "Kubernetes API error: (403) Forbidden" ]} |}.
Proof. repeat split; vm_compute; reflexivity. Qed.

Section ReservedKey.
Variable future_result : string -> Raised + NamespaceImages.

(** A context named ["__errors__"] that was scanned with success loses its
    place to the error messages as soon as another context fails. *)
Lemma reserved_name_rebound (names completed : list string)
    (r : NamespaceImages) (other : string) (e : Raised) :
  Permutation names completed ->
  "__errors__" ∈ names ->
  future_result "__errors__" = inr r ->
  other ∈ names ->
  future_result other = inl e ->
  (collect future_result completed).1 !! "__errors__" = Some (Namespaces r) /\
  exists errs,
    errs !! other = Some (message e) /\
    scan_multiple_contexts future_result names completed !! "__errors__"
    = Some (Errors errs).
Proof.
  intros Hperm Hres Hr Hin He. rewrite Hperm in Hres, Hin. split.
  - rewrite collect_results, Hr, decide_True by exact Hres. reflexivity.
  - exists (collect future_result completed).2.
    pose proof (collect_errors future_result completed other) as Hmsg.
    rewrite He, decide_True in Hmsg by exact Hin. split; [exact Hmsg|].
    rewrite scan_multiple_contexts_unfold.
    + destruct (decide _) as [Hempty|_]; [|apply lookup_insert_eq].
      rewrite Hempty, lookup_empty in Hmsg. discriminate.
    + intros ->. apply Permutation_nil in Hperm as ->. inversion Hin.
Qed.

(** [scan_images] takes whatever is bound to the reserved key for the
    errors, and the other bindings for the contexts. *)
Lemma scan_images_reads_reserved_key (discovered : list string)
    (chosen completed : list string) (v : Entry) :
  scan_multiple_contexts future_result chosen completed !! "__errors__" = Some v ->
  scan_images future_result discovered (Some chosen) false completed =
  {| contexts := delete "__errors__"
                   (scan_multiple_contexts future_result chosen completed);
     errors := if entry_truthy v then v else Errors ∅ |}.
Proof. intros H. unfold scan_images. rewrite H. reflexivity. Qed.

End ReservedKey.

(** C10, where the code departs from it.  With the single context
    ["__errors__"], scanned with success, the returned dictionary has the
    key ["__errors__"] although no context failed: it is bound to the
    namespaces of that context, and [scan_images] reports these namespaces
    as the errors and no context at all. *)
Theorem reserved_key_without_failure :
  all_fine "__errors__" = inr nginx_namespaces /\
  scan_multiple_contexts all_fine ["__errors__"] ["__errors__"]
  = {[ "__errors__" := Namespaces nginx_namespaces ]} /\
  scan_images all_fine [] (Some ["__errors__"]) false ["__errors__"]
  = {| contexts := ∅; errors := Namespaces nginx_namespaces |}.
Proof. repeat split; vm_compute; reflexivity. Qed.

(** * Further properties of the parser *)

(** ** Transport schemes *)

Section SchemeLemmas.

Lemma contains_app (p : ascii -> bool) (s t : string) :
  contains p (s +:+ t) = contains p s || contains p t.
Proof.
  induction s as [|c s IH]; [reflexivity|].
  rewrite append_cons. cbn [contains]. rewrite IH, orb_assoc. reflexivity.
Qed.

Lemma drop_while_scheme_stop (sch rest : string) :
  all_in is_scheme_char sch = true ->
  drop_while is_scheme_char (sch +:+ "://" +:+ rest) = "://" +:+ rest.
Proof.
  intros Hs. change ("://" +:+ rest) with (String ":" ("//" +:+ rest)).
  apply (take_while_stop is_scheme_char sch ":" ("//" +:+ rest) Hs eq_refl).
Qed.

(** The scheme [strip_scheme] takes off, spelled out. *)
Lemma strip_scheme_decompose (s : string) :
  strip_scheme s = s \/
  exists (c : ascii) (sch : string),
    is_alpha c = true /\ all_in is_scheme_char sch = true /\
    s = String c sch +:+ "://" +:+ strip_scheme s.
Proof.
  destruct s as [|c r]; [left; reflexivity|]. unfold strip_scheme.
  destruct (is_alpha c) eqn:Hc; [|left; reflexivity].
  pose proof (take_drop_while is_scheme_char r) as Hr.
  pose proof (take_while_all is_scheme_char r) as Hall.
  destruct (drop_while is_scheme_char r) as [|x [|y [|z tail]]];
    try (left; reflexivity).
  destruct (Ascii.eqb_spec x ":") as [->|]; [|left; reflexivity].
  destruct (Ascii.eqb_spec y "/") as [->|]; [|left; reflexivity].
  destruct (Ascii.eqb_spec z "/") as [->|]; [|left; reflexivity].
  right. exists c, (take_while is_scheme_char r). cbn [andb].
  split; [exact Hc|]. split; [exact Hall|].
  rewrite append_cons. f_equal. exact Hr.
Qed.

Lemma strip_scheme_no_slash (s : string) :
  contains (Ascii.eqb "/") s = false -> strip_scheme s = s.
Proof.
  intros Hs. destruct (strip_scheme_decompose s) as [H|(c & sch & _ & _ & H)];
    [exact H|].
  rewrite H in Hs. rewrite append_cons in Hs. cbn [contains] in Hs.
  rewrite contains_app in Hs. change ("://" +:+ strip_scheme s)
    with (String ":" (String "/" (String "/" (strip_scheme s)))) in Hs.
  cbn [contains] in Hs. rewrite Ascii.eqb_refl in Hs.
  rewrite !orb_true_r in Hs. discriminate.
Qed.

End SchemeLemmas.

(** X1.  [strip_scheme] takes off exactly one leading scheme: a string made
    of a letter, characters of the scheme class and ["://"] in front of
    anything loses that front and nothing else; and whatever the string, the
    result is the string itself or what follows such a front. *)
Theorem strip_scheme_one_scheme :
  (forall (c : ascii) (sch rest : string),
      is_alpha c = true ->
      all_in is_scheme_char sch = true ->
      strip_scheme (String c sch +:+ "://" +:+ rest) = rest) /\
  (forall s : string,
      strip_scheme s = s \/
      exists (c : ascii) (sch : string),
        is_alpha c = true /\ all_in is_scheme_char sch = true /\
        s = String c sch +:+ "://" +:+ strip_scheme s).
Proof.
  split; [|exact strip_scheme_decompose].
  intros c sch rest Hc Hs. rewrite append_cons. unfold strip_scheme.
  rewrite Hc, (drop_while_scheme_stop sch rest Hs). reflexivity.
Qed.

Lemma strip_scheme_one_scheme_witness :
  strip_scheme "cri-o://quay.io/org/app:1" = "quay.io/org/app:1" /\
  (strip_scheme "docker://a://b" = "docker://a://b" \/
   exists (c : ascii) (sch : string),
     is_alpha c = true /\ all_in is_scheme_char sch = true /\
     "docker://a://b" = String c sch +:+ "://" +:+ strip_scheme "docker://a://b").
Proof.
  split.
  - apply (proj1 strip_scheme_one_scheme "c"%char "ri-o" "quay.io/org/app:1");
      reflexivity.
  - apply (proj2 strip_scheme_one_scheme "docker://a://b").
Defined.

(** ** Short names *)

Section ShortNameLemmas.

Lemma contains_ext (p q : ascii -> bool) (s : string) :
  (forall c, p c = q c) -> contains p s = contains q s.
Proof.
  intros H. induction s as [|c s IH]; [reflexivity|].
  cbn [contains]. rewrite H, IH. reflexivity.
Qed.

Lemma contains_delimiter (s : string) :
  contains is_name_delimiter s =
  contains (Ascii.eqb "/") s || contains (Ascii.eqb "@") s
  || contains (Ascii.eqb ":") s.
Proof.
  induction s as [|c s IH]; [reflexivity|]. cbn [contains]. rewrite IH.
  unfold is_name_delimiter.
  rewrite (Ascii.eqb_sym c "/"), (Ascii.eqb_sym c "@"), (Ascii.eqb_sym c ":").
  destruct (Ascii.eqb "/" c), (Ascii.eqb "@" c), (Ascii.eqb ":" c),
    (contains (Ascii.eqb "/") s), (contains (Ascii.eqb "@") s),
    (contains (Ascii.eqb ":") s); reflexivity.
Qed.

Lemma contains_take_while (p q : ascii -> bool) (s : string) :
  contains q s = false -> contains q (take_while p s) = false.
Proof.
  induction s as [|c s IH]; [reflexivity|]. cbn [contains take_while].
  intros [Hc Hs]%orb_false_iff. destruct (p c); [|reflexivity].
  cbn [contains]. rewrite Hc. apply IH. exact Hs.
Qed.

Lemma before_first_clean (d : ascii) (s : string) :
  contains (Ascii.eqb d) (before_first d s) = false.
Proof.
  unfold before_first. induction s as [|c s IH]; [reflexivity|].
  cbn [take_while]. destruct (Ascii.eqb_spec c d) as [->|Hne]; [reflexivity|].
  cbn [negb contains]. rewrite IH.
  destruct (Ascii.eqb_spec d c) as [->|]; [contradiction|reflexivity].
Qed.

Lemma before_first_none (d : ascii) (s : string) :
  contains (Ascii.eqb d) s = false -> before_first d s = s.
Proof.
  unfold before_first. induction s as [|c s IH]; [reflexivity|].
  cbn [contains take_while]. intros [Hc Hs]%orb_false_iff.
  rewrite Ascii.eqb_sym, Hc. cbn [negb]. rewrite IH by exact Hs. reflexivity.
Qed.

Lemma before_first_app (d : ascii) (s rest : string) :
  contains (Ascii.eqb d) s = false ->
  before_first d (s +:+ String d rest) = s.
Proof.
  unfold before_first. induction s as [|c s IH].
  - intros _. rewrite append_nil_l. cbn [take_while].
    rewrite Ascii.eqb_refl. reflexivity.
  - cbn [contains]. intros [Hc Hs]%orb_false_iff.
    rewrite append_cons. cbn [take_while].
    rewrite Ascii.eqb_sym, Hc. cbn [negb]. rewrite IH by exact Hs. reflexivity.
Qed.

Lemma after_last_clean (d : ascii) (s : string) :
  contains (Ascii.eqb d) (after_last d s) = false.
Proof.
  induction s as [|c s IH]; [reflexivity|]. cbn [after_last].
  destruct (contains (Ascii.eqb d) s) eqn:Hs; [exact IH|].
  destruct (Ascii.eqb_spec c d) as [->|Hne]; [exact Hs|].
  cbn [contains]. rewrite Hs.
  destruct (Ascii.eqb_spec d c) as [->|]; [contradiction|reflexivity].
Qed.

Lemma after_last_none (d : ascii) (s : string) :
  contains (Ascii.eqb d) s = false -> after_last d s = s.
Proof.
  destruct s as [|c s]; [reflexivity|]. cbn [contains after_last].
  intros [Hc Hs]%orb_false_iff. rewrite Hs, Ascii.eqb_sym, Hc. reflexivity.
Qed.

Lemma after_last_cons (d : ascii) (s : string) :
  after_last d (String d s) = after_last d s.
Proof.
  cbn [after_last]. rewrite Ascii.eqb_refl.
  destruct (contains (Ascii.eqb d) s) eqn:Hs; [reflexivity|].
  symmetry. apply after_last_none. exact Hs.
Qed.

Lemma after_last_app (d : ascii) (p s : string) :
  after_last d (p +:+ String d s) = after_last d s.
Proof.
  induction p as [|c p IH]; [rewrite append_nil_l; apply after_last_cons|].
  rewrite append_cons. cbn [after_last].
  rewrite contains_app. cbn [contains]. rewrite Ascii.eqb_refl.
  rewrite orb_true_r. exact IH.
Qed.

(** The scheme takes no part in the last path segment. *)
Lemma after_last_strip_scheme (s : string) :
  after_last "/" (strip_scheme s) = after_last "/" s.
Proof.
  destruct (strip_scheme_decompose s) as [->|(c & sch & _ & _ & H)];
    [reflexivity|].
  rewrite H at 2.
  change ("://" +:+ strip_scheme s)
    with (":/" +:+ String "/" (strip_scheme s)).
  rewrite <- append_assoc. symmetry. apply after_last_app.
Qed.

Lemma short_name_unfold (s : string) :
  short_name s =
  if truthy s then name_of_segment (after_last "/" (strip_scheme s))
  else "unknown".
Proof. reflexivity. Qed.

Lemma name_of_segment_clean (t : string) :
  contains (Ascii.eqb "/") t = false ->
  truthy (name_of_segment t) = true /\
  contains is_name_delimiter (name_of_segment t) = false.
Proof.
  intros Ht. unfold name_of_segment.
  pose proof (before_first_clean "@" t) as Hat.
  assert (contains (Ascii.eqb "/") (before_first "@" t) = false) as Hsl.
  { apply contains_take_while. exact Ht. }
  set (t1 := before_first "@" t) in *.
  assert (exists t2,
             (if contains (Ascii.eqb ":") t1 then before_first ":" t1 else t1)
             = t2 /\
             contains (Ascii.eqb "/") t2 = false /\
             contains (Ascii.eqb "@") t2 = false /\
             contains (Ascii.eqb ":") t2 = false) as (t2 & -> & H1 & H2 & H3).
  { destruct (contains (Ascii.eqb ":") t1) eqn:Hc.
    - exists (before_first ":" t1). split; [reflexivity|].
      split; [apply contains_take_while; exact Hsl|].
      split; [apply contains_take_while; exact Hat|].
      apply before_first_clean.
    - exists t1. auto. }
  destruct t2 as [|c t2]; [split; reflexivity|].
  split; [reflexivity|].
  cbn [truthy]. rewrite contains_delimiter, H1, H2, H3. reflexivity.
Qed.

Lemma name_of_segment_name (nm : string) :
  truthy nm = true ->
  contains is_name_delimiter nm = false ->
  name_of_segment nm = nm /\
  forall (sep : ascii) (rest : string),
    sep = ":"%char \/ sep = "@"%char ->
    name_of_segment (nm +:+ String sep rest) = nm.
Proof.
  intros Hnm Hd. rewrite contains_delimiter in Hd.
  apply orb_false_iff in Hd as [[Hsl Hat]%orb_false_iff Hco].
  unfold name_of_segment. split.
  - rewrite (before_first_none "@" nm Hat), Hco, Hnm. reflexivity.
  - intros sep rest [->| ->].
    + assert (before_first ":" (before_first "@" (nm +:+ String ":" rest)) = nm
              /\ contains (Ascii.eqb ":")
                   (before_first "@" (nm +:+ String ":" rest)) = true)
        as [H1 H2].
      { unfold before_first at 2 3.
        clear Hnm Hsl. induction nm as [|c nm IH].
        - rewrite append_nil_l. cbn [take_while]. cbn. split; reflexivity.
        - cbn [contains] in Hat, Hco.
          apply orb_false_iff in Hat as [Hc1 Hat].
          apply orb_false_iff in Hco as [Hc2 Hco].
          destruct (IH Hat Hco) as [IH1 IH2].
          rewrite append_cons. cbn [take_while].
          rewrite Ascii.eqb_sym, Hc1. cbn [negb contains].
          rewrite IH2, orb_true_r. split; [|reflexivity].
          unfold before_first in *. cbn [take_while].
          rewrite Ascii.eqb_sym, Hc2. cbn [negb]. rewrite IH1. reflexivity. }
      rewrite H2, H1, Hnm. reflexivity.
    + rewrite (before_first_app "@" nm rest Hat), Hco, Hnm. reflexivity.
Qed.

End ShortNameLemmas.

(** X2.  A short name is never empty and holds none of ["/"], ["@"] and
    [":"], whatever the reference it is taken from. *)
Theorem short_name_clean (s : string) :
  truthy (short_name s) = true /\
  contains is_name_delimiter (short_name s) = false.
Proof.
  rewrite short_name_unfold. destruct (truthy s); [|split; reflexivity].
  apply name_of_segment_clean, after_last_clean.
Qed.

(** X3.  A short name is read off the last path segment alone: what stands
    before the last ["/"], registry, port and transport scheme included, does
    not matter.  Of a segment that is a name followed by [":"] or ["@"] and
    a tag or digest, or the name alone, the short name is that name. *)
Theorem short_name_last_segment :
  (forall dir seg : string,
      contains (Ascii.eqb "/") seg = false ->
      short_name (dir +:+ "/" +:+ seg) = short_name seg) /\
  (forall (nm rest : string) (sep : ascii),
      truthy nm = true ->
      contains is_name_delimiter nm = false ->
      contains (Ascii.eqb "/") rest = false ->
      sep = ":"%char \/ sep = "@"%char ->
      short_name nm = nm /\ short_name (nm +:+ String sep rest) = nm).
Proof.
  split.
  - intros dir seg Hseg. rewrite !short_name_unfold.
    rewrite !after_last_strip_scheme.
    change (dir +:+ "/" +:+ seg) with (dir +:+ String "/" seg).
    rewrite after_last_app, (after_last_none "/" seg Hseg).
    assert (truthy (dir +:+ String "/" seg) = true) as ->.
    { destruct dir; reflexivity. }
    destruct seg as [|c seg]; reflexivity.
  - intros nm rest sep Hnm Hd Hrest Hsep.
    destruct (name_of_segment_name nm Hnm Hd) as [H1 H2].
    pose proof Hd as Hd'. rewrite contains_delimiter in Hd'.
    apply orb_false_iff in Hd' as [[Hsl _]%orb_false_iff _].
    assert (contains (Ascii.eqb "/") (nm +:+ String sep rest) = false) as Hall.
    { rewrite contains_app. cbn [contains]. rewrite Hsl, Hrest.
      destruct Hsep as [-> | ->]; reflexivity. }
    rewrite !short_name_unfold, !after_last_strip_scheme.
    rewrite (after_last_none "/" nm Hsl), (after_last_none "/" _ Hall).
    rewrite Hnm, H1, (H2 sep rest Hsep).
    destruct nm; [discriminate|]. split; reflexivity.
Qed.

Lemma short_name_last_segment_witness :
  short_name ("registry.local:5000/ns" +:+ "/" +:+ "app@sha256:0123")
  = short_name "app@sha256:0123" /\
  short_name "app" = "app" /\
  short_name ("app" +:+ String "@" "sha256:0123") = "app".
Proof.
  destruct short_name_last_segment as [Hdir Hname]. split.
  - apply (Hdir "registry.local:5000/ns" "app@sha256:0123"). reflexivity.
  - apply (Hname "app" "sha256:0123" "@"%char); try reflexivity. right. reflexivity.
Defined.

(** ** Digest extraction *)

Section ExtractLemmas.

Lemma take_upto_prefix (n : nat) (p : ascii -> bool) (s : string) :
  exists post, s = take_upto n p s +:+ post.
Proof.
  revert s. induction n as [|n IH]; intros s; [exists s; destruct s; reflexivity|].
  destruct s as [|c s]; [exists ""; reflexivity|]. cbn [take_upto].
  destruct (p c); [|exists (String c s); reflexivity].
  destruct (IH s) as [post H]. exists post. rewrite append_cons, <- H. reflexivity.
Qed.

Lemma take_upto_le (n : nat) (p : ascii -> bool) (s : string) :
  String.length (take_upto n p s) <= n.
Proof.
  revert s. induction n as [|n IH]; intros [|c s]; cbn [take_upto];
    try (simpl; lia).
  destruct (p c); simpl; [|lia]. specialize (IH s). lia.
Qed.

Lemma take_upto_all_short (n : nat) (p : ascii -> bool) (s : string) :
  all_in p s = true -> String.length s <= n -> take_upto n p s = s.
Proof.
  revert s. induction n as [|n IH]; intros [|c s]; cbn [take_upto all_in];
    try reflexivity.
  - simpl. lia.
  - intros [Hc Hs]%andb_prop Hlen. simpl in Hlen. rewrite Hc, IH by (auto; lia).
    reflexivity.
Qed.

Lemma take_upto_app_ge (n : nat) (p : ascii -> bool) (s post : string) :
  all_in p s = true ->
  Nat.min n (String.length s) <= String.length (take_upto n p (s +:+ post)).
Proof.
  revert s. induction n as [|n IH]; intros s Hs; [simpl; lia|].
  destruct s as [|c s]; [simpl; lia|].
  cbn [all_in] in Hs. apply andb_prop in Hs as [Hc Hs].
  rewrite append_cons. cbn [take_upto]. rewrite Hc. simpl.
  specialize (IH s Hs). lia.
Qed.

Lemma take_upto_app_stop (n : nat) (p : ascii -> bool) (s : string)
    (c : ascii) (t : string) :
  p c = false -> take_upto n p (s +:+ String c t) = take_upto n p s.
Proof.
  intros Hc. revert s. induction n as [|n IH]; intros s.
  - destruct s; reflexivity.
  - destruct s as [|a s].
    + rewrite append_nil_l. cbn [take_upto]. rewrite Hc. reflexivity.
    + rewrite append_cons. cbn [take_upto]. rewrite IH. reflexivity.
Qed.

Lemma take_while_app_stop (p : ascii -> bool) (s : string) (c : ascii)
    (t : string) :
  p c = false -> take_while p (s +:+ String c t) = take_while p s.
Proof.
  intros Hc. induction s as [|a s IH].
  - rewrite append_nil_l. cbn [take_while]. rewrite Hc. reflexivity.
  - rewrite append_cons. cbn [take_while]. rewrite IH. reflexivity.
Qed.

(** What the digest pattern matches at the head of a string: the parts of a
    digest, and the string goes on after them. *)
Lemma match_digest_parts (s algo hexd : string) :
  match_digest s = Some (algo, hexd) ->
  digest_parts (algo +:+ ":" +:+ hexd) algo hexd /\
  exists post, s = (algo +:+ ":" +:+ hexd) +:+ post.
Proof.
  unfold match_digest.
  pose proof (take_while_all is_algo_char s) as Hall.
  pose proof (take_drop_while is_algo_char s) as Hs.
  destruct (take_while is_algo_char s) as [|a al]; [discriminate|].
  destruct (drop_while is_algo_char s) as [|c rest]; [discriminate|].
  destruct (Ascii.eqb_spec c ":") as [->|]; [|discriminate]. cbn [andb].
  pose proof (take_upto_all 128 is_hex rest) as Hhex.
  pose proof (take_upto_le 128 is_hex rest) as Hle.
  destruct (take_upto_prefix 128 is_hex rest) as [post Hpost].
  remember (take_upto 128 is_hex rest) as hx eqn:Hhx. clear Hhx.
  destruct (32 <=? String.length hx) eqn:Hlen; [|discriminate].
  intros H. injection H as <- <-. apply Nat.leb_le in Hlen. split.
  - split; [reflexivity|]. split; [reflexivity|]. split; [exact Hall|].
    split; [exact Hhex|]. split; [exact Hlen|exact Hle].
  - exists post. rewrite Hs, Hpost.
    change (String ":" (hx +:+ post)) with (":" +:+ hx +:+ post).
    rewrite !append_assoc. reflexivity.
Qed.

Lemma DIGEST_RE_search_parts (s algo hexd : string) :
  DIGEST_RE_search s = Some (algo, hexd) ->
  digest_parts (algo +:+ ":" +:+ hexd) algo hexd /\
  exists pre post, s = pre +:+ (algo +:+ ":" +:+ hexd) +:+ post.
Proof.
  induction s as [|c s IH]; cbn [DIGEST_RE_search].
  - destruct (match_digest "") as [g|] eqn:Hm; [|discriminate].
    intros [= ->]. apply match_digest_parts in Hm as [Hp [post Hpost]].
    split; [exact Hp|]. exists "", post. exact Hpost.
  - destruct (match_digest (String c s)) as [g|] eqn:Hm.
    + intros [= ->]. apply match_digest_parts in Hm as [Hp [post Hpost]].
      split; [exact Hp|]. exists "", post. exact Hpost.
    + intros H. destruct (IH H) as [Hp (pre & post & Hs)].
      split; [exact Hp|]. exists (String c pre), post.
      rewrite append_cons, <- Hs. reflexivity.
Qed.

(** The digest pattern matches at the head of a digest, whatever follows. *)
Lemma match_digest_head (d post : string) :
  digest_form d -> is_Some (match_digest (d +:+ post)).
Proof.
  intros (a & algo & hexd & -> & Halgo & Hhex & Hlen).
  unfold match_digest. rewrite !append_assoc.
  change (":" +:+ hexd +:+ post) with (String ":" (hexd +:+ post)).
  destruct (take_while_stop is_algo_char (String a algo) ":" (hexd +:+ post)
              Halgo eq_refl) as [-> ->].
  rewrite Ascii.eqb_refl.
  pose proof (take_upto_app_ge 128 is_hex hexd post Hhex) as Hge.
  assert ((32 <=? String.length (take_upto 128 is_hex (hexd +:+ post))) = true)
    as ->; [|cbn; eauto].
  apply Nat.leb_le. lia.
Qed.

Lemma DIGEST_RE_search_finds (pre d post : string) :
  digest_form d -> is_Some (DIGEST_RE_search (pre +:+ d +:+ post)).
Proof.
  intros Hd. induction pre as [|c pre IH].
  - rewrite append_nil_l. pose proof (match_digest_head d post Hd) as [g Hg].
    destruct (d +:+ post); cbn [DIGEST_RE_search]; rewrite Hg; eauto.
  - rewrite append_cons. cbn [DIGEST_RE_search].
    destruct (match_digest _); [eauto|exact IH].
Qed.

Lemma extract_digest_app (cs1 cs2 : list (option string)) :
  extract_digest (cs1 ++ cs2) =
  match extract_digest cs1 with
  | Some d => Some d
  | None => extract_digest cs2
  end.
Proof.
  induction cs1 as [|c cs1 IH]; [reflexivity|].
  cbn [app extract_digest].
  destruct (truthy (or_empty c)); [|exact IH].
  destruct (DIGEST_RE_search (or_empty c)) as [[algo hexd]|]; [reflexivity|exact IH].
Qed.

End ExtractLemmas.

(** X4.  A digest returned by [extract_digest] is a non-empty algorithm
    name, a colon and 32 to 128 hexadecimal characters, and it is part of
    one of the candidates, character for character. *)
Theorem extract_digest_from_candidate
    (candidates : list (option string)) (d : string) :
  extract_digest candidates = Some d ->
  exists algo hexd cand pre post : string,
    digest_parts d algo hexd /\
    In (Some cand) candidates /\
    cand = pre +:+ d +:+ post.
Proof.
  induction candidates as [|c cs IH]; cbn [extract_digest]; [discriminate|].
  assert (extract_digest cs = Some d ->
          exists algo hexd cand pre post : string,
            digest_parts d algo hexd /\ In (Some cand) (c :: cs) /\
            cand = pre +:+ d +:+ post) as Hrest.
  { intros H. destruct (IH H) as (algo & hexd & cand & pre & post & Hp & Hin & Hc).
    exists algo, hexd, cand, pre, post. split; [exact Hp|].
    split; [right; exact Hin|exact Hc]. }
  destruct c as [cand|]; cbn [or_empty truthy]; [|exact Hrest].
  destruct (truthy cand); [|exact Hrest].
  destruct (DIGEST_RE_search cand) as [[algo hexd]|] eqn:Hs; [|exact Hrest].
  intros [= <-]. apply DIGEST_RE_search_parts in Hs as [Hp (pre & post & Hc)].
  exists algo, hexd, cand, pre, post. split; [exact Hp|].
  split; [left; reflexivity|exact Hc].
Qed.

Lemma extract_digest_from_candidate_witness :
  exists algo hexd cand pre post : string,
    digest_parts sha_a algo hexd /\
    In (Some cand)
       [Some ("docker-pullable://docker.io/library/nginx@" +:+ sha_a);
        Some "docker.io/library/nginx:1.25"] /\
    cand = pre +:+ sha_a +:+ post.
Proof.
  apply (extract_digest_from_candidate
           [Some ("docker-pullable://docker.io/library/nginx@" +:+ sha_a);
            Some "docker.io/library/nginx:1.25"] sha_a).
  reflexivity.
Defined.

(** X5.  The candidates are tried in order and the first one that holds a
    digest decides: a list of candidates followed by another gives what the
    first list gives, and what the second gives only when the first gives
    nothing.  Absent and empty candidates are passed over. *)
Theorem extract_digest_in_order :
  (forall cs1 cs2 : list (option string),
      extract_digest (cs1 ++ cs2) =
      match extract_digest cs1 with
      | Some d => Some d
      | None => extract_digest cs2
      end) /\
  (forall cs : list (option string),
      extract_digest (None :: cs) = extract_digest cs /\
      extract_digest (Some "" :: cs) = extract_digest cs).
Proof.
  split; [exact extract_digest_app|]. intros cs. split; reflexivity.
Qed.

(** X6.  No digest is overlooked: when a candidate holds a digest anywhere,
    [extract_digest] returns one. *)
Theorem extract_digest_finds
    (candidates : list (option string)) (pre d post : string) :
  digest_form d ->
  In (Some (pre +:+ d +:+ post)) candidates ->
  is_Some (extract_digest candidates).
Proof.
  intros Hd Hin. induction candidates as [|c cs IH]; [destruct Hin|].
  cbn [extract_digest]. destruct Hin as [->|Hin].
  - cbn [or_empty].
    destruct (DIGEST_RE_search_finds pre d post Hd) as [[algo hexd] Hs].
    rewrite Hs.
    assert (truthy (pre +:+ d +:+ post) = true) as ->; [|eauto].
    destruct Hd as (a & al & hx & -> & _). destruct pre; reflexivity.
  - destruct (truthy (or_empty c)); [|exact (IH Hin)].
    destruct (DIGEST_RE_search (or_empty c)) as [[algo hexd]|]; [eauto|].
    exact (IH Hin).
Qed.

Lemma extract_digest_finds_witness :
  is_Some (extract_digest
             [None; Some ("containerd://ghcr.io/org/app@" +:+ sha_b +:+ "")]).
Proof.
  apply (extract_digest_finds _ "containerd://ghcr.io/org/app@" sha_b "").
  - exists "s"%char, "ha256",
      "bbbbbbbbbbbbbbbbbbbbbbbbbbbbbbbbbbbbbbbbbbbbbbbbbbbbbbbbbbbbbbbb".
    repeat split. apply Nat.leb_le. reflexivity.
  - right. left. reflexivity.
Defined.

Section RoundTripLemmas.

(** An ["@"] ends whatever the digest pattern may match before it. *)
Lemma match_digest_app_at (s t : string) :
  match_digest (s +:+ String "@" t) = match_digest s.
Proof.
  unfold match_digest.
  rewrite (take_while_app_stop is_algo_char s "@" t eq_refl).
  rewrite drop_while_app.
  destruct (take_while is_algo_char s) as [|a al];
    [destruct (drop_while is_algo_char s); reflexivity|].
  destruct (drop_while is_algo_char s) as [|c rest]; [reflexivity|].
  rewrite append_cons.
  rewrite (take_upto_app_stop 128 is_hex rest "@" t eq_refl). reflexivity.
Qed.

Lemma DIGEST_RE_search_None (c : ascii) (s : string) :
  DIGEST_RE_search (String c s) = None ->
  match_digest (String c s) = None /\ DIGEST_RE_search s = None.
Proof.
  cbn [DIGEST_RE_search].
  destruct (match_digest (String c s)); [discriminate|auto].
Qed.

Lemma DIGEST_RE_search_None_head (s : string) :
  DIGEST_RE_search s = None -> match_digest s = None.
Proof.
  destruct s as [|c s]; [|intros H; apply (DIGEST_RE_search_None c s H)].
  cbn [DIGEST_RE_search]. destruct (match_digest ""); [discriminate|reflexivity].
Qed.

Lemma DIGEST_RE_search_app_at (s t : string) :
  DIGEST_RE_search s = None ->
  DIGEST_RE_search (s +:+ String "@" t) = DIGEST_RE_search t.
Proof.
  induction s as [|c s IH]; intros Hs.
  - rewrite append_nil_l. reflexivity.
  - apply DIGEST_RE_search_None in Hs as [Hm Hs].
    rewrite append_cons. cbn [DIGEST_RE_search].
    rewrite <- append_cons, match_digest_app_at, Hm. apply IH. exact Hs.
Qed.

Lemma DIGEST_RE_search_None_AT (s : string) :
  DIGEST_RE_search s = None -> AT_DIGEST_RE_search s = false.
Proof.
  induction s as [|c s IH]; [reflexivity|].
  intros [_ Hs]%DIGEST_RE_search_None. cbn [AT_DIGEST_RE_search].
  rewrite (IH Hs), (DIGEST_RE_search_None_head s Hs).
  rewrite bool_decide_eq_false_2 by (intros [x Hx]; discriminate).
  rewrite andb_false_r. reflexivity.
Qed.

(** On a digest within the bounds, the pattern matches all of it. *)
Lemma DIGEST_RE_search_digest (d algo hexd : string) :
  digest_parts d algo hexd -> DIGEST_RE_search d = Some (algo, hexd).
Proof.
  intros (-> & Hne & Halgo & Hhex & Hlo & Hhi).
  destruct algo as [|a algo]; [discriminate|].
  rewrite append_cons. cbn [DIGEST_RE_search]. rewrite <- append_cons.
  unfold match_digest. change (":" +:+ hexd) with (String ":" hexd).
  destruct (take_while_stop is_algo_char (String a algo) ":" hexd Halgo eq_refl)
    as [-> ->].
  rewrite Ascii.eqb_refl, (take_upto_all_short 128 is_hex hexd Hhex Hhi).
  apply Nat.leb_le in Hlo. rewrite Hlo. reflexivity.
Qed.

Lemma extract_digest_parts (candidates : list (option string)) (d : string) :
  extract_digest candidates = Some d ->
  exists algo hexd, digest_parts d algo hexd.
Proof.
  induction candidates as [|c cs IH]; cbn [extract_digest]; [discriminate|].
  destruct (truthy (or_empty c)); [|exact IH].
  destruct (DIGEST_RE_search (or_empty c)) as [[algo hexd]|] eqn:Hs; [|exact IH].
  intros [= <-]. apply DIGEST_RE_search_parts in Hs as [Hp _]. eauto.
Qed.

End RoundTripLemmas.

(** X7.  Composing and extracting are inverse to each other on the digest:
    from a reference composed of an image that holds no digest and a digest
    within the bounds of the pattern, [extract_digest] reads that very
    digest back. *)
Theorem compose_then_extract (image d algo hexd : string) :
  DIGEST_RE_search (strip_scheme image) = None ->
  digest_parts d algo hexd ->
  compose_reference image (Some d) = strip_scheme image +:+ "@" +:+ d /\
  extract_digest [Some (compose_reference image (Some d))] = Some d.
Proof.
  intros Himg Hd.
  assert (compose_reference image (Some d) = strip_scheme image +:+ "@" +:+ d)
    as Hc.
  { unfold compose_reference.
    rewrite (DIGEST_RE_search_None_AT _ Himg).
    destruct Hd as (-> & Hne & _). destruct algo; [discriminate|reflexivity]. }
  split; [exact Hc|]. rewrite Hc. cbn [extract_digest or_empty].
  change ("@" +:+ d) with (String "@" d).
  rewrite (DIGEST_RE_search_app_at _ d Himg).
  rewrite (DIGEST_RE_search_digest d algo hexd Hd).
  assert (truthy (strip_scheme image +:+ String "@" d) = true) as ->.
  { destruct (strip_scheme image); reflexivity. }
  destruct Hd as (-> & _). reflexivity.
Qed.

Lemma compose_then_extract_witness :
  compose_reference "docker://nginx:1.25" (Some sha_a) = "nginx:1.25@" +:+ sha_a /\
  extract_digest [Some (compose_reference "docker://nginx:1.25" (Some sha_a))]
  = Some sha_a.
Proof.
  apply (compose_then_extract "docker://nginx:1.25" sha_a "sha256"
           "aaaaaaaaaaaaaaaaaaaaaaaaaaaaaaaaaaaaaaaaaaaaaaaaaaaaaaaaaaaaaaaa").
  - reflexivity.
  - repeat split; apply Nat.leb_le; reflexivity.
Defined.

(** ** Validity and white space *)

Section StripLemmas.

Lemma lstrip_spaces (ws s : string) :
  all_in isspace ws = true -> lstrip (ws +:+ s) = lstrip s.
Proof.
  induction ws as [|c ws IH]; [reflexivity|]. cbn [all_in].
  intros [Hc Hws]%andb_prop. rewrite append_cons. cbn [lstrip].
  rewrite Hc. apply IH. exact Hws.
Qed.

Lemma rstrip_all_spaces (ws : string) :
  all_in isspace ws = true -> rstrip ws = "".
Proof.
  induction ws as [|c ws IH]; [reflexivity|]. cbn [all_in].
  intros [Hc Hws]%andb_prop. cbn [rstrip]. rewrite (IH Hws), Hc. reflexivity.
Qed.

Lemma rstrip_spaces (s ws : string) :
  all_in isspace ws = true -> rstrip (s +:+ ws) = rstrip s.
Proof.
  intros Hws. induction s as [|c s IH].
  - rewrite append_nil_l. apply rstrip_all_spaces. exact Hws.
  - rewrite append_cons. cbn [rstrip]. rewrite IH. reflexivity.
Qed.

Lemma strip_spaces_right (s ws : string) :
  all_in isspace ws = true -> strip (s +:+ ws) = strip s.
Proof.
  intros Hws. unfold strip. induction s as [|c s IH].
  - rewrite append_nil_l.
    rewrite <- (append_nil_r ws), lstrip_spaces by exact Hws. reflexivity.
  - rewrite append_cons. cbn [lstrip]. destruct (isspace c); [exact IH|].
    rewrite <- append_cons. apply rstrip_spaces. exact Hws.
Qed.

(** White space around a string is gone after [strip]. *)
Lemma strip_spaces (ws s ws' : string) :
  all_in isspace ws = true -> all_in isspace ws' = true ->
  strip (ws +:+ s +:+ ws') = strip s.
Proof.
  intros Hws Hws'. rewrite <- (strip_spaces_right s ws' Hws').
  unfold strip. rewrite lstrip_spaces by exact Hws. reflexivity.
Qed.

Lemma rstrip_nonspace_end (s : string) (c : ascii) :
  isspace c = false -> rstrip (s +:+ String c "") = s +:+ String c "".
Proof.
  intros Hc. induction s as [|a s IH].
  - rewrite append_nil_l. cbn [rstrip]. rewrite Hc. reflexivity.
  - rewrite append_cons. cbn [rstrip]. rewrite IH.
    destruct (s +:+ String c "") eqn:E; [|reflexivity].
    destruct s; discriminate.
Qed.

Lemma is_alpha_not_space (c : ascii) : is_alpha c = true -> isspace c = false.
Proof.
  destruct c as [[] [] [] [] [] [] [] []]; vm_compute; intros H;
    first [reflexivity | discriminate H].
Qed.

End StripLemmas.

(** X8.  White space around a reference has no say in its validity. *)
Theorem is_valid_image_ref_ignores_spaces (ws s ws' : string) :
  all_in isspace ws = true ->
  all_in isspace ws' = true ->
  is_valid_image_ref (Some (ws +:+ s +:+ ws')) = is_valid_image_ref (Some s).
Proof.
  intros Hws Hws'. unfold is_valid_image_ref. cbn [or_empty].
  rewrite (strip_spaces ws s ws' Hws Hws'). reflexivity.
Qed.

Lemma is_valid_image_ref_ignores_spaces_witness :
  is_valid_image_ref (Some (String "009" " " +:+ "nginx:1.25" +:+ String "010" ""))
  = is_valid_image_ref (Some "nginx:1.25").
Proof.
  apply (is_valid_image_ref_ignores_spaces (String "009" " ") "nginx:1.25"
           (String "010" "")); reflexivity.
Defined.

(** ** Extracted images *)

Section ExtractedImageLemmas.

(** A valid image is more than a transport scheme. *)
Lemma valid_strip_scheme_truthy (image : string) :
  is_valid_image_ref (Some image) = true -> truthy (strip_scheme image) = true.
Proof.
  intros Hv. destruct (strip_scheme image) as [|x y] eqn:E; [|reflexivity].
  exfalso. destruct (strip_scheme_decompose image) as [H|(c & sch & Hc & _ & H)].
  - rewrite E in H. subst image. discriminate Hv.
  - rewrite E in H.
    assert (strip image = image) as Hs.
    { rewrite H. unfold strip. rewrite append_cons. cbn [lstrip].
      rewrite (is_alpha_not_space c Hc). rewrite <- append_cons.
      change ("://" +:+ "") with (":/" +:+ String "/" "").
      rewrite <- append_assoc. apply rstrip_nonspace_end. reflexivity. }
    unfold is_valid_image_ref in Hv. cbn [or_empty] in Hv.
    rewrite Hs, E in Hv. discriminate Hv.
Qed.

Lemma compose_reference_truthy (image : string) (dg : option string) :
  truthy (strip_scheme image) = true ->
  truthy (compose_reference image dg) = true.
Proof.
  intros Hn. unfold compose_reference.
  destruct (AT_DIGEST_RE_search (strip_scheme image)); [exact Hn|].
  destruct dg as [d|]; [|exact Hn]. destruct (truthy d); [|exact Hn].
  destruct (strip_scheme image); [discriminate|reflexivity].
Qed.

Lemma image_of_status_shape (status : ContainerStatus) (img : ContainerImage) :
  image_of_status status = Some img ->
  truthy (ref img) = true /\
  name img = short_name (ref img) /\
  forall d, digest img = Some d -> exists algo hexd, digest_parts d algo hexd.
Proof.
  unfold image_of_status.
  destruct (is_valid_image_ref _) eqn:Hv; [|discriminate].
  apply valid_strip_scheme_truthy in Hv.
  remember (extract_digest _) as dg eqn:Hdg.
  pose proof (compose_reference_truthy _ dg Hv) as Hr.
  intros [= <-]. cbn [ref name digest]. rewrite Hr.
  split; [reflexivity|]. split; [reflexivity|].
  intros d ->. eapply extract_digest_parts. symmetry. exact Hdg.
Qed.

Lemma image_of_spec_shape (container : ContainerSpec) (img : ContainerImage) :
  image_of_spec container = Some img ->
  truthy (ref img) = true /\
  name img = short_name (ref img) /\
  forall d, digest img = Some d -> exists algo hexd, digest_parts d algo hexd.
Proof.
  unfold image_of_spec.
  destruct (is_valid_image_ref _) eqn:Hv; [|discriminate].
  apply valid_strip_scheme_truthy in Hv.
  remember (extract_digest _) as dg eqn:Hdg.
  pose proof (compose_reference_truthy _ dg Hv) as Hr.
  intros [= <-]. cbn [ref name digest]. rewrite Hr.
  split; [reflexivity|]. split; [reflexivity|].
  intros d ->. eapply extract_digest_parts. symmetry. exact Hdg.
Qed.

Lemma from_statuses_In (statuses : option (list ContainerStatus))
    (img : ContainerImage) :
  In img (from_statuses statuses) ->
  exists status, image_of_status status = Some img.
Proof.
  destruct statuses as [l|]; [|intros []].
  intros (status & _ & H)%list_elem_of_In%list_elem_of_omap. eauto.
Qed.

Lemma from_container_specs_In (containers : option (list ContainerSpec))
    (img : ContainerImage) :
  In img (from_container_specs containers) ->
  exists container, image_of_spec container = Some img.
Proof.
  destruct containers as [l|]; [|intros []].
  intros (container & _ & H)%list_elem_of_In%list_elem_of_omap. eauto.
Qed.

End ExtractedImageLemmas.

(** X9.  Every image either extractor emits has a reference that is not
    empty, the short name of that reference as its name, and, when its digest
    is set, a digest made of a non-empty algorithm name, a colon and 32 to
    128 hexadecimal characters. *)
Theorem extracted_image_shape
    (statuses : option (list ContainerStatus))
    (containers : option (list ContainerSpec)) (img : ContainerImage) :
  In img (from_statuses statuses ++ from_container_specs containers) ->
  truthy (ref img) = true /\
  name img = short_name (ref img) /\
  forall d, digest img = Some d -> exists algo hexd, digest_parts d algo hexd.
Proof.
  intros [H|H]%in_app_or.
  - apply from_statuses_In in H as [status H].
    exact (image_of_status_shape status img H).
  - apply from_container_specs_In in H as [container H].
    exact (image_of_spec_shape container img H).
Qed.

Lemma extracted_image_shape_witness :
  truthy ("docker.io/library/nginx:1.25@" +:+ sha_a) = true /\
  "nginx" = short_name ("docker.io/library/nginx:1.25@" +:+ sha_a) /\
  forall d, Some sha_a = Some d -> exists algo hexd, digest_parts d algo hexd.
Proof.
  apply (extracted_image_shape (Some [tagged_status]) None
           {| ref := "docker.io/library/nginx:1.25@" +:+ sha_a;
              name := "nginx"; digest := Some sha_a |}).
  left. reflexivity.
Defined.

(** * Further properties of the scan of one context *)

Section OrderedDictMore.
Context {V : Type}.
Implicit Types (d : list (string * V)) (k : string) (v : V).

Lemma keys_set_iff k k' v d :
  In k' (ODict.keys (ODict.set k v d)) <-> k' = k \/ In k' (ODict.keys d).
Proof.
  split; [apply keys_set_In|].
  induction d as [|[k0 v0] d IH]; simpl.
  - intros [->|[]]. left. reflexivity.
  - destruct (String.eqb_spec k0 k) as [->|Hk0]; simpl.
    + intros [->|[<-|H]]; auto.
    + intros [->|[<-|H]]; auto.
Qed.

Lemma set_same k v d : ODict.get k d = Some v -> ODict.set k v d = d.
Proof.
  induction d as [|[k0 v0] d IH]; simpl; [discriminate|].
  destruct (String.eqb_spec k0 k) as [->|Hk0].
  - intros [= ->]. reflexivity.
  - intros H. rewrite (IH H). reflexivity.
Qed.

Lemma get_Some_keys k d : In k (ODict.keys d) -> exists v, ODict.get k d = Some v.
Proof.
  intros H. destruct (ODict.get k d) as [v|] eqn:E; [eauto|].
  apply get_None_keys in E. contradiction.
Qed.

End OrderedDictMore.

Section NamespaceLemmas.
Implicit Types (state : list (string * list (string * ContainerImage))).

Lemma fold_add_pod_keys_In (pods : list Pod) state (namespace : string) :
  In namespace (ODict.keys (fold_left add_pod pods state)) <->
  In namespace (ODict.keys state) \/
  exists pod, In pod pods /\ namespace_of pod = namespace.
Proof.
  revert state. induction pods as [|pod pods IH]; intros state.
  - cbn [fold_left]. split; [auto|]. intros [H|(pod & [] & _)]. exact H.
  - cbn [fold_left]. rewrite IH. unfold add_pod at 1. rewrite keys_set_iff.
    split.
    + intros [[->|H]|(p & Hp & Hn)].
      * right. exists pod. split; [left|]; reflexivity.
      * left. exact H.
      * right. exists p. split; [right; exact Hp|exact Hn].
    + intros [H|(p & [<-|Hp] & Hn)].
      * left. right. exact H.
      * left. left. symmetry. exact Hn.
      * right. exists p. auto.
Qed.

Lemma images_per_namespace_keys (pods : list Pod) :
  map fst (images_per_namespace pods) = ODict.keys (fold_left add_pod pods []).
Proof.
  unfold images_per_namespace, ODict.keys. rewrite map_map.
  apply map_ext. intros [ns image_map]. reflexivity.
Qed.

End NamespaceLemmas.

(** X10.  The namespaces of a scan result are those of the pods, a pod
    without namespace counting for ["default"], each listed once.  A
    namespace is listed even when none of its pods has an image: its list is
    then empty. *)
Theorem namespaces_of_result (pods : list Pod) :
  NoDup (map fst (images_per_namespace pods)) /\
  (forall namespace : string,
      In namespace (map fst (images_per_namespace pods)) <->
      exists pod, In pod pods /\ namespace_of pod = namespace) /\
  (forall pod : Pod,
      In pod pods ->
      extracted (namespace_of pod) pods = [] ->
      In (namespace_of pod, []) (images_per_namespace pods)).
Proof.
  split; [|split].
  - rewrite images_per_namespace_keys. apply fold_add_pod_keys. constructor.
  - intros namespace. rewrite images_per_namespace_keys, fold_add_pod_keys_In.
    cbn. tauto.
  - intros pod Hin Hnone.
    assert (In (namespace_of pod) (ODict.keys (fold_left add_pod pods []))) as Hk.
    { apply fold_add_pod_keys_In. right. eauto. }
    apply get_Some_keys in Hk as [bucket Hget].
    pose proof (fold_add_pod_get pods [] _ _ Hget) as Hb.
    rewrite Hnone in Hb. cbn in Hb. subst bucket.
    apply get_Some_In in Hget. unfold images_per_namespace.
    apply in_map_iff. exists (namespace_of pod, []). split; [reflexivity|exact Hget].
Qed.

Lemma namespaces_of_result_witness :
  In ("default", [])
     (images_per_namespace
        [ {| metadata_namespace := None; containerStatuses := None;
             initContainerStatuses := None; ephemeralContainerStatuses := None;
             spec_containers := None |};
          bare_pod "" ]).
Proof.
  apply (proj2 (proj2 (namespaces_of_result _))
           {| metadata_namespace := None; containerStatuses := None;
              initContainerStatuses := None; ephemeralContainerStatuses := None;
              spec_containers := None |}).
  - left. reflexivity.
  - reflexivity.
Defined.

Section RepeatedPodLemmas.
Implicit Types (bucket : list (string * ContainerImage))
  (state : list (string * list (string * ContainerImage))).

Lemma get_setdefault_mono (k k' : string) (y : ContainerImage) bucket :
  ODict.get k bucket <> None ->
  ODict.get k (ODict.setdefault k' y bucket) <> None.
Proof.
  intros H. unfold ODict.setdefault.
  destruct (ODict.get k' bucket); [exact H|].
  rewrite get_app_one. destruct (ODict.get k bucket); [discriminate|contradiction].
Qed.

Lemma get_setdefault_self (k : string) (y : ContainerImage) bucket :
  ODict.get k (ODict.setdefault k y bucket) <> None.
Proof.
  unfold ODict.setdefault. destruct (ODict.get k bucket) eqn:E.
  - rewrite E. discriminate.
  - rewrite get_app_one, E, String.eqb_refl. discriminate.
Qed.

Lemma add_images_mono (l : list ContainerImage) bucket (k : string) :
  ODict.get k bucket <> None -> ODict.get k (add_images bucket l) <> None.
Proof.
  revert bucket. induction l as [|y l IH]; intros bucket H; [exact H|].
  apply (IH (ODict.setdefault (identity_key y) y bucket)).
  apply get_setdefault_mono. exact H.
Qed.

Lemma add_images_covers (l : list ContainerImage) bucket (img : ContainerImage) :
  In img l -> ODict.get (identity_key img) (add_images bucket l) <> None.
Proof.
  revert bucket. induction l as [|y l IH]; intros bucket; [intros []|].
  intros [->|Hin].
  - apply (add_images_mono l (ODict.setdefault (identity_key img) img bucket)).
    apply get_setdefault_self.
  - apply (IH (ODict.setdefault (identity_key y) y bucket) Hin).
Qed.

Lemma add_images_absorb (l : list ContainerImage) bucket :
  (forall img, In img l -> ODict.get (identity_key img) bucket <> None) ->
  add_images bucket l = bucket.
Proof.
  induction l as [|y l IH]; intros H; [reflexivity|].
  change (add_images bucket (y :: l))
    with (add_images (ODict.setdefault (identity_key y) y bucket) l).
  assert (ODict.setdefault (identity_key y) y bucket = bucket) as ->.
  { unfold ODict.setdefault.
    destruct (ODict.get (identity_key y) bucket) eqn:E; [reflexivity|].
    exfalso. apply (H y); [left; reflexivity|exact E]. }
  apply IH. intros img Hin. apply H. right. exact Hin.
Qed.

Lemma add_pod_absorb state (pod : Pod) :
  pod_covered state pod -> add_pod state pod = state.
Proof.
  intros (bucket & Hget & Hall). unfold add_pod. rewrite Hget.
  rewrite (add_images_absorb _ bucket Hall). apply set_same. exact Hget.
Qed.

Lemma add_pod_self state (pod : Pod) : pod_covered (add_pod state pod) pod.
Proof.
  unfold pod_covered, add_pod. eexists. split; [apply get_set_eq|].
  intros img Hin. apply add_images_covers. exact Hin.
Qed.

Lemma add_pod_mono state (pod pod' : Pod) :
  pod_covered state pod -> pod_covered (add_pod state pod') pod.
Proof.
  intros (bucket & Hget & Hall). unfold pod_covered, add_pod.
  destruct (String.eqb_spec (namespace_of pod') (namespace_of pod)) as [E|E].
  - rewrite E, Hget. eexists. split; [apply get_set_eq|].
    intros img Hin. apply add_images_mono, Hall, Hin.
  - exists bucket. split; [|exact Hall].
    rewrite get_set_ne by exact E. exact Hget.
Qed.

Lemma fold_add_pod_covers (pods : list Pod) state (pod : Pod) :
  In pod pods \/ pod_covered state pod ->
  pod_covered (fold_left add_pod pods state) pod.
Proof.
  revert state. induction pods as [|p pods IH]; intros state.
  - intros [[]|H]. exact H.
  - cbn [fold_left]. intros [[->|Hin]|H]; apply IH.
    + right. apply add_pod_self.
    + left. exact Hin.
    + right. apply add_pod_mono. exact H.
Qed.

Lemma fold_add_pod_absorb (pods : list Pod) state :
  (forall pod, In pod pods -> pod_covered state pod) ->
  fold_left add_pod pods state = state.
Proof.
  induction pods as [|p pods IH]; intros H; [reflexivity|].
  cbn [fold_left]. rewrite add_pod_absorb by (apply H; left; reflexivity).
  apply IH. intros pod Hin. apply H. right. exact Hin.
Qed.

End RepeatedPodLemmas.

(** X11.  A pod met a second time changes nothing: when every pod of a
    second list is already in the first list, scanning the first list
    followed by the second gives the result of the first list alone,
    namespaces, images and order. *)
Theorem repeated_pods_change_nothing (pods again : list Pod) :
  (forall pod, In pod again -> In pod pods) ->
  images_per_namespace (pods ++ again) = images_per_namespace pods.
Proof.
  intros Hsub. unfold images_per_namespace. rewrite fold_left_app.
  rewrite fold_add_pod_absorb; [reflexivity|].
  intros pod Hin. apply fold_add_pod_covers. left. apply Hsub, Hin.
Qed.

Lemma repeated_pods_change_nothing_witness :
  images_per_namespace (two_tags ++ rev two_tags) = images_per_namespace two_tags.
Proof.
  apply (repeated_pods_change_nothing two_tags (rev two_tags)).
  intros pod Hin. apply in_rev. exact Hin.
Defined.

(** X12.  The scan neither invents nor loses an image: every image listed
    for a namespace is an image of a pod of that namespace, and every image
    of a pod of that namespace has an image with its identity key in the
    list. *)
Theorem namespace_images_complete
    (pods : list Pod) (namespace : string) (imgs : list ContainerImage) :
  In (namespace, imgs) (images_per_namespace pods) ->
  (forall x, In x imgs -> In x (extracted namespace pods)) /\
  (forall y, In y (extracted namespace pods) ->
             exists x, In x imgs /\ identity_key x = identity_key y).
Proof.
  intros (bucket & Hb & ->)%images_per_namespace_In.
  assert (forall x, In x (sorted (ODict.values bucket)) <->
                    first_with_key (identity_key x) (extracted namespace pods)
                    = Some x) as Hkept.
  { intros x. rewrite (sorted_perm (ODict.values bucket)), Hb.
    rewrite add_images_values. cbn [ODict.values ODict.get map]. split.
    - intros [[]|[_ H]]. exact H.
    - intros H. right. split; [reflexivity|exact H]. }
  split.
  - intros x Hx. apply Hkept in Hx. apply find_some in Hx as [Hx _]. exact Hx.
  - intros y Hy.
    destruct (first_with_key (identity_key y) (extracted namespace pods))
      as [x|] eqn:Hfind.
    + pose proof Hfind as Hx. apply find_some in Hx as [_ Hk].
      apply String.eqb_eq in Hk. exists x. split; [|exact Hk].
      apply Hkept. rewrite Hk. exact Hfind.
    + unfold first_with_key in Hfind.
      pose proof (find_none _ _ Hfind y Hy) as Hn. cbn in Hn.
      rewrite String.eqb_refl in Hn. discriminate.
Qed.

Lemma namespace_images_complete_witness :
  let kept :=
    [ {| ref := "Alpha:3"; name := "Alpha"; digest := None |};
      {| ref := "repo/app:v1@" +:+ sha_a; name := "app"; digest := Some sha_a |};
      {| ref := "zeta:1"; name := "zeta"; digest := None |} ] in
  (forall x, In x kept -> In x (extracted "prod" two_tags)) /\
  (forall y, In y (extracted "prod" two_tags) ->
             exists x, In x kept /\ identity_key x = identity_key y).
Proof.
  apply (namespace_images_complete two_tags "prod").
  left. reflexivity.
Defined.

(** ** Requests that fail *)

Section FailingSource.
Context {St : Type}.
Variable remote : St -> option string -> (Raised + PodList) * St.

Lemma list_loop_fails (st : St) (tok : option string) (pages : list PodList)
    (exc : Raised) (st' : St) :
  fails_after remote st tok pages exc st' ->
  forall (fuel : nat) (items : list Pod) (issued : list (option string)),
    length pages < fuel ->
    list_loop remote fuel st tok items issued =
    Some {| source := st';
            requests := issued ++ tok :: map data_continue pages;
            outcome := inl exc |}.
Proof.
  induction 1 as [st tok exc st' Hr|st tok data st' pages exc st'' Hr Ht Hs IH];
    intros [|fuel] items issued Hfuel; simpl in Hfuel; try lia.
  - cbn [list_loop]. rewrite Hr. reflexivity.
  - cbn [list_loop]. rewrite Hr. unfold has_token in Ht. rewrite Ht.
    rewrite IH by lia. cbn [map]. rewrite <- app_assoc. reflexivity.
Qed.

End FailingSource.

(** X13.  A request that fails fails the whole listing: when the source
    raises after having served some pages, the lister raises the same
    exception, has issued one request per page served and the one that
    failed, and returns none of the pods it had received; the scan of the
    context ends with that exception too. *)
Theorem failed_request_fails_listing {St : Type}
    (remote : St -> option string -> (Raised + PodList) * St)
    (st st' : St) (pages : list PodList) (exc : Raised) (fuel : nat) :
  fails_after remote st None pages exc st' ->
  length pages < fuel ->
  list_pods_across_all_namespaces remote fuel st =
  Some {| source := st'; requests := None :: map data_continue pages;
          outcome := inl exc |} /\
  scan_single_context remote fuel st =
  Some {| source := st'; requests := None :: map data_continue pages;
          outcome := inl exc |}.
Proof.
  intros Hs Hfuel.
  assert (list_pods_across_all_namespaces remote fuel st =
          Some {| source := st'; requests := None :: map data_continue pages;
                  outcome := inl exc |}) as H.
  { unfold list_pods_across_all_namespaces.
    rewrite (list_loop_fails remote st None pages exc st' Hs) by exact Hfuel.
    reflexivity. }
  split; [exact H|]. unfold scan_single_context. rewrite H. reflexivity.
Qed.

Lemma failed_request_fails_listing_witness :
  list_pods_across_all_namespaces expired_token 5 0 =
  Some {| source := 2; requests := [None; Some "T1"];
          outcome := inl (ApiException "(410) Gone") |} /\
  scan_single_context expired_token 5 0 =
  Some {| source := 2; requests := [None; Some "T1"];
          outcome := inl (ApiException "(410) Gone") |}.
Proof.
  apply (failed_request_fails_listing expired_token 0 2 [page_one]
           (ApiException "(410) Gone") 5).
  - eapply fails_later; [reflexivity|reflexivity|].
    apply fails_now. reflexivity.
  - simpl. lia.
Defined.

(** X14.  Pagination and aggregation compose: against a source that serves
    a sequence of pages, the scan of a context returns the images per
    namespace of the pods of all pages, taken in page order. *)
Theorem scan_single_context_pages {St : Type}
    (remote : St -> option string -> (Raised + PodList) * St)
    (st st' : St) (pages : list PodList) (fuel : nat) :
  serves remote st None pages st' ->
  length pages <= fuel ->
  scan_single_context remote fuel st =
  Some {| source := st';
          requests := None :: map data_continue (removelast pages);
          outcome := inr (images_per_namespace (flat_map data_items pages)) |}.
Proof.
  intros Hs Hfuel. unfold scan_single_context, list_pods_across_all_namespaces.
  rewrite (list_loop_serves remote st None pages st' Hs) by exact Hfuel.
  reflexivity.
Qed.

Lemma scan_single_context_pages_witness :
  scan_single_context three_pages 3 0 =
  Some {| source := 3; requests := [None; Some "T1"; Some "T2"];
          outcome := inr [("a", []); ("b", []); ("c", []); ("d", []); ("e", [])] |}.
Proof.
  apply (scan_single_context_pages three_pages 0 3
           [page_one; page_two; page_three] 3 three_pages_serves).
  simpl. lia.
Defined.

(** * Further properties of the scan of many contexts *)

Section ManyContextsMore.
Variable future_result : string -> Raised + NamespaceImages.

Lemma collect_perm (c1 c2 : list string) :
  Permutation c1 c2 -> collect future_result c1 = collect future_result c2.
Proof.
  intros Hperm.
  rewrite (surjective_pairing (collect future_result c1)).
  rewrite (surjective_pairing (collect future_result c2)).
  f_equal; apply map_eq; intros k.
  - rewrite !collect_results. destruct (future_result k); [reflexivity|].
    destruct (decide (k ∈ c1)) as [H1|H1], (decide (k ∈ c2)) as [H2|H2];
      try reflexivity; exfalso; rewrite Hperm in H1; contradiction.
  - rewrite !collect_errors. destruct (future_result k); [|reflexivity].
    destruct (decide (k ∈ c1)) as [H1|H1], (decide (k ∈ c2)) as [H2|H2];
      try reflexivity; exfalso; rewrite Hperm in H1; contradiction.
Qed.

(** What is bound to the reserved key, when it is an error map, is the
    dictionary of the messages. *)
Lemma reserved_key_errors (names completed : list string)
    (errs : gmap string string) :
  scan_multiple_contexts future_result names completed !! "__errors__"
  = Some (Errors errs) ->
  errs = (collect future_result completed).2 /\ errs <> ∅.
Proof.
  destruct names as [|n names]; [cbn; rewrite lookup_empty; discriminate|].
  rewrite scan_multiple_contexts_unfold by discriminate.
  destruct (decide _) as [He|He].
  - rewrite collect_results. destruct (future_result "__errors__");
      [discriminate|]. destruct (decide _); discriminate.
  - rewrite lookup_insert_eq. intros [= <-]. auto.
Qed.

Lemma scan_multiple_contexts_lookup (names completed : list string)
    (k : string) :
  k <> "__errors__" ->
  names <> [] ->
  scan_multiple_contexts future_result names completed !! k
  = (collect future_result completed).1 !! k.
Proof.
  intros Hk Hne. rewrite scan_multiple_contexts_unfold by exact Hne.
  destruct (decide _); [reflexivity|].
  rewrite lookup_insert_ne by congruence. reflexivity.
Qed.

End ManyContextsMore.

(** Lists of contexts without repeated names, to try the statements on. *)
Lemma NoDup_abc : NoDup ["a"; "b"; "c"].
Proof. apply (bool_decide_unpack _). vm_compute. exact I. Qed.

Lemma NoDup_ab : NoDup ["a"; "b"].
Proof. apply (bool_decide_unpack _). vm_compute. exact I. Qed.

(** X15.  For contexts without repeated names, what is bound to a key does
    not depend on the order in which the scans complete: under two orders of
    completion of the futures every key has the same binding, or none under
    both.  The order of the keys of the returned dictionary follows the
    completion and is no part of the statement. *)
Theorem completion_order_irrelevant
    (future_result : string -> Raised + NamespaceImages)
    (names c1 c2 : list string) (k : string) :
  NoDup names ->
  Permutation names c1 ->
  Permutation names c2 ->
  scan_multiple_contexts future_result names c1 !! k
  = scan_multiple_contexts future_result names c2 !! k.
Proof.
  intros _ H1 H2. unfold scan_multiple_contexts.
  rewrite (collect_perm future_result c1 c2); [reflexivity|].
  rewrite <- H1. exact H2.
Qed.

Lemma completion_order_irrelevant_witness :
  scan_multiple_contexts b_forbidden ["a"; "b"; "c"] ["a"; "b"; "c"] !! "c"
  = scan_multiple_contexts b_forbidden ["a"; "b"; "c"] ["b"; "c"; "a"] !! "c".
Proof.
  apply (completion_order_irrelevant b_forbidden ["a"; "b"; "c"]
           ["a"; "b"; "c"] ["b"; "c"; "a"] "c" NoDup_abc).
  - reflexivity.
  - apply (Permutation_cons_append ["b"; "c"] "a").
Defined.

(** X16.  For contexts without repeated names, none of them named
    ["__errors__"], the returned dictionary keeps successes and failures
    apart, context by context: a context whose scan returned is bound to its
    namespaces and has no message; a context whose scan raised has no
    binding of its own and has its message in the error map under
    ["__errors__"]; what the other contexts did has no part in it. *)
Theorem contexts_kept_apart
    (future_result : string -> Raised + NamespaceImages)
    (names completed : list string) (name : string) :
  NoDup names ->
  Permutation names completed ->
  "__errors__" ∉ names ->
  name ∈ names ->
  match future_result name with
  | inr r =>
      scan_multiple_contexts future_result names completed !! name
      = Some (Namespaces r) /\
      forall errs,
        scan_multiple_contexts future_result names completed !! "__errors__"
        = Some (Errors errs) -> errs !! name = None
  | inl e =>
      scan_multiple_contexts future_result names completed !! name = None /\
      exists errs,
        scan_multiple_contexts future_result names completed !! "__errors__"
        = Some (Errors errs) /\ errs !! name = Some (message e)
  end.
Proof. intros _. apply scan_multiple_contexts_partition. Qed.

Lemma contexts_kept_apart_witness :
  scan_multiple_contexts b_forbidden ["a"; "b"; "c"] ["b"; "c"; "a"] !! "b" = None /\
  exists errs,
    scan_multiple_contexts b_forbidden ["a"; "b"; "c"] ["b"; "c"; "a"]
    !! "__errors__" = Some (Errors errs) /\
    errs !! "b" = Some (message (ApiException "(403) Forbidden")).
Proof.
  apply (contexts_kept_apart b_forbidden ["a"; "b"; "c"] ["b"; "c"; "a"] "b"
           NoDup_abc).
  - apply (Permutation_cons_append ["b"; "c"] "a").
  - intros H. repeat (apply elem_of_cons in H as [H|H]; [discriminate|]).
    inversion H.
  - apply elem_of_cons. right. apply elem_of_cons. left. reflexivity.
Defined.

(** X17.  Nothing is returned for a context that was not asked for: a key
    of the returned dictionary is one of the names given or the reserved
    key, and a key of the error map is one of the names given. *)
Theorem only_asked_contexts
    (future_result : string -> Raised + NamespaceImages)
    (names completed : list string) (k : string) :
  Permutation names completed ->
  (is_Some (scan_multiple_contexts future_result names completed !! k) ->
   k ∈ names \/ k = "__errors__") /\
  (forall errs,
      scan_multiple_contexts future_result names completed !! "__errors__"
      = Some (Errors errs) ->
      is_Some (errs !! k) -> k ∈ names).
Proof.
  intros Hperm. split.
  - destruct (String.eqb_spec k "__errors__") as [->|Hk]; [auto|].
    destruct names as [|n names].
    { cbn. rewrite lookup_empty. intros [x Hx]. discriminate. }
    rewrite (scan_multiple_contexts_lookup future_result _ _ k Hk)
      by discriminate.
    rewrite collect_results. intros [x Hx]. left.
    destruct (future_result k); [discriminate|].
    destruct (decide (k ∈ completed)) as [Hin|]; [|discriminate].
    rewrite Hperm. exact Hin.
  - intros errs [-> _]%reserved_key_errors. rewrite collect_errors.
    intros [x Hx]. destruct (future_result k); [|discriminate].
    destruct (decide (k ∈ completed)) as [Hin|]; [|discriminate].
    rewrite Hperm. exact Hin.
Qed.

Lemma only_asked_contexts_witness :
  (is_Some (scan_multiple_contexts b_forbidden ["a"; "b"] ["b"; "a"] !! "a") ->
   "a" ∈ ["a"; "b"] \/ "a" = "__errors__") /\
  (forall errs,
      scan_multiple_contexts b_forbidden ["a"; "b"] ["b"; "a"] !! "__errors__"
      = Some (Errors errs) ->
      is_Some (errs !! "a") -> "a" ∈ ["a"; "b"]).
Proof.
  apply (only_asked_contexts b_forbidden ["a"; "b"] ["b"; "a"] "a").
  apply (Permutation_cons_append ["b"] "a").
Defined.

(** X18.  For contexts without repeated names, the error map is bound to
    the reserved key exactly when some context failed; it is then not empty
    and holds, for each failed context and for no other name, the message of
    its failure. *)
Theorem error_map_iff_failure
    (future_result : string -> Raised + NamespaceImages)
    (names completed : list string) :
  NoDup names ->
  Permutation names completed ->
  ((exists errs,
       scan_multiple_contexts future_result names completed !! "__errors__"
       = Some (Errors errs)) <->
   (exists name e, name ∈ names /\ future_result name = inl e)) /\
  (forall errs,
      scan_multiple_contexts future_result names completed !! "__errors__"
      = Some (Errors errs) ->
      errs <> ∅ /\
      forall name,
        errs !! name =
        match future_result name with
        | inl e => if decide (name ∈ names) then Some (message e) else None
        | inr _ => None
        end).
Proof.
  intros _ Hperm. split; [apply scan_multiple_contexts_errors; exact Hperm|].
  intros errs [-> Hne]%reserved_key_errors. split; [exact Hne|].
  intros name. rewrite collect_errors. destruct (future_result name);
    [|reflexivity].
  destruct (decide (name ∈ completed)) as [H1|H1],
    (decide (name ∈ names)) as [H2|H2];
    try reflexivity; exfalso; rewrite Hperm in H2; contradiction.
Qed.

Lemma error_map_iff_failure_witness :
  ((exists errs,
       scan_multiple_contexts b_forbidden ["a"; "b"] ["b"; "a"] !! "__errors__"
       = Some (Errors errs)) <->
   (exists name e, name ∈ ["a"; "b"] /\ b_forbidden name = inl e)) /\
  (forall errs,
      scan_multiple_contexts b_forbidden ["a"; "b"] ["b"; "a"] !! "__errors__"
      = Some (Errors errs) ->
      errs <> ∅ /\
      forall name,
        errs !! name =
        match b_forbidden name with
        | inl e => if decide (name ∈ ["a"; "b"]) then Some (message e) else None
        | inr _ => None
        end).
Proof.
  apply (error_map_iff_failure b_forbidden ["a"; "b"] ["b"; "a"] NoDup_ab).
  apply (Permutation_cons_append ["b"] "a").
Defined.

Section ScanImagesLemmas.
Variable future_result : string -> Raised + NamespaceImages.

Lemma scan_images_unfold (discovered : list string)
    (asked : option (list string)) (all_contexts : bool)
    (completed : list string) :
  scan_images future_result discovered asked all_contexts completed =
  let raw := scan_multiple_contexts future_result
               (chosen_contexts discovered asked all_contexts) completed in
  match raw !! "__errors__" with
  | Some v =>
      {| contexts := delete "__errors__" raw;
         errors := if entry_truthy v then v else Errors ∅ |}
  | None => {| contexts := raw; errors := Errors ∅ |}
  end.
Proof. destruct asked, all_contexts; reflexivity. Qed.

(** The two dictionaries of a [ScanResult] over chosen contexts none of which
    bears the reserved name. *)
Lemma scan_images_chosen (discovered : list string)
    (asked : option (list string)) (all_contexts : bool)
    (completed : list string) :
  Permutation (chosen_contexts discovered asked all_contexts) completed ->
  "__errors__" ∉ chosen_contexts discovered asked all_contexts ->
  exists errs,
    errors (scan_images future_result discovered asked all_contexts completed)
    = Errors errs /\
    forall name,
      contexts
        (scan_images future_result discovered asked all_contexts completed)
      !! name =
      match future_result name with
      | inr r =>
          if decide (name ∈ chosen_contexts discovered asked all_contexts)
          then Some (Namespaces r) else None
      | inl _ => None
      end /\
      errs !! name =
      match future_result name with
      | inl e =>
          if decide (name ∈ chosen_contexts discovered asked all_contexts)
          then Some (message e) else None
      | inr _ => None
      end.
Proof.
  rewrite scan_images_unfold. cbv zeta.
  generalize (chosen_contexts discovered asked all_contexts).
  intros chosen Hperm Hres.
  assert (forall name : string, name ∈ completed <-> name ∈ chosen) as Hdec.
  { intros name. rewrite Hperm. reflexivity. }
  assert (forall name,
             (collect future_result completed).1 !! name =
             match future_result name with
             | inr r => if decide (name ∈ chosen) then Some (Namespaces r) else None
             | inl _ => None
             end) as Hres1.
  { intros name. rewrite collect_results. destruct (future_result name);
      [reflexivity|]. specialize (Hdec name).
    destruct (decide (name ∈ completed)), (decide (name ∈ chosen));
      try reflexivity; tauto. }
  assert (forall name,
             (collect future_result completed).2 !! name =
             match future_result name with
             | inl e => if decide (name ∈ chosen) then Some (message e) else None
             | inr _ => None
             end) as Herr.
  { intros name. rewrite collect_errors. destruct (future_result name);
      [|reflexivity]. specialize (Hdec name).
    destruct (decide (name ∈ completed)), (decide (name ∈ chosen));
      try reflexivity; tauto. }
  assert ((collect future_result completed).1 !! "__errors__" = None) as Hnone.
  { rewrite Hres1. destruct (future_result "__errors__"); [reflexivity|].
    rewrite decide_False by exact Hres. reflexivity. }
  destruct chosen as [|n chosen].
  { apply Permutation_nil in Hperm as ->. cbn. rewrite lookup_empty. cbn.
    exists ∅. split; [reflexivity|].
    intros name. rewrite !lookup_empty.
    destruct (future_result name); split; reflexivity. }
  rewrite scan_multiple_contexts_unfold by discriminate.
  destruct (decide ((collect future_result completed).2 = ∅)) as [He|He].
  - rewrite Hnone. cbn [contexts errors].
    exists ∅. split; [reflexivity|]. intros name. split; [apply Hres1|].
    rewrite <- Herr, He. reflexivity.
  - rewrite lookup_insert_eq. cbn [contexts errors entry_truthy].
    rewrite bool_decide_eq_true_2 by exact He.
    exists (collect future_result completed).2. split; [reflexivity|].
    intros name. split; [|apply Herr].
    destruct (String.eqb_spec name "__errors__") as [->|Hn].
    + rewrite lookup_delete_eq, <- Hres1, Hnone. reflexivity.
    + rewrite lookup_delete_ne, lookup_insert_ne by congruence. apply Hres1.
Qed.

End ScanImagesLemmas.

(** X19.  Whatever its arguments, [scan_images] never lists the reserved key
    among the contexts.  For chosen contexts (the given ones, or the
    discovered ones when all are asked for or none is given) without
    repeated names, none of them named ["__errors__"], its result is the
    partition of the chosen contexts: [contexts] holds the namespaces of
    exactly those whose scan returned, [errors] the messages of exactly
    those whose scan raised. *)
Theorem scan_images_partition
    (future_result : string -> Raised + NamespaceImages)
    (discovered : list string) (asked : option (list string))
    (all_contexts : bool) (completed : list string) :
  contexts
    (scan_images future_result discovered asked all_contexts completed)
  !! "__errors__" = None /\
  (NoDup (chosen_contexts discovered asked all_contexts) ->
   Permutation (chosen_contexts discovered asked all_contexts) completed ->
   "__errors__" ∉ chosen_contexts discovered asked all_contexts ->
   exists errs,
     errors (scan_images future_result discovered asked all_contexts completed)
     = Errors errs /\
     forall name,
       contexts
         (scan_images future_result discovered asked all_contexts completed)
       !! name =
       match future_result name with
       | inr r =>
           if decide (name ∈ chosen_contexts discovered asked all_contexts)
           then Some (Namespaces r) else None
       | inl _ => None
       end /\
       errs !! name =
       match future_result name with
       | inl e =>
           if decide (name ∈ chosen_contexts discovered asked all_contexts)
           then Some (message e) else None
       | inr _ => None
       end).
Proof.
  split.
  - rewrite scan_images_unfold. cbv zeta.
    destruct (scan_multiple_contexts _ _ _ !! "__errors__") eqn:E;
      cbn [contexts]; [apply lookup_delete_eq|exact E].
  - intros _. apply scan_images_chosen.
Qed.

Lemma scan_images_partition_witness :
  contexts
    (scan_images b_forbidden ["a"; "b"] (Some ["b"]) true ["b"; "a"])
  !! "__errors__" = None /\
  exists errs,
    errors (scan_images b_forbidden ["a"; "b"] (Some ["b"]) true ["b"; "a"])
    = Errors errs /\
    forall name,
      contexts
        (scan_images b_forbidden ["a"; "b"] (Some ["b"]) true ["b"; "a"])
      !! name =
      match b_forbidden name with
      | inr r =>
          if decide (name ∈ chosen_contexts ["a"; "b"] (Some ["b"]) true)
          then Some (Namespaces r) else None
      | inl _ => None
      end /\
      errs !! name =
      match b_forbidden name with
      | inl e =>
          if decide (name ∈ chosen_contexts ["a"; "b"] (Some ["b"]) true)
          then Some (message e) else None
      | inr _ => None
      end.
Proof.
  destruct (scan_images_partition b_forbidden ["a"; "b"] (Some ["b"]) true
              ["b"; "a"]) as [Hkey Hpart].
  split; [exact Hkey|]. apply Hpart.
  - exact NoDup_ab.
  - apply (Permutation_cons_append ["b"] "a").
  - intros H. repeat (apply elem_of_cons in H as [H|H]; [discriminate|]).
    inversion H.
Defined.

(** * The kubeconfig path *)

(** X20.  Resolving is settled in one step: the path [resolve] returns,
    given back to it as the explicit path, is returned again, and so is
    [None].  With a default path that is not empty, a path it returns is
    never empty, and it returns [None] only when neither argument nor
    environment name a path and no file stands at the default place. *)
Theorem resolve_settled
    (explicit_path env_path : option string) (default_path : string)
    (default_exists : bool) :
  truthy default_path = true ->
  KubeconfigLocator.resolve
    (KubeconfigLocator.resolve explicit_path env_path default_path default_exists)
    env_path default_path default_exists
  = KubeconfigLocator.resolve explicit_path env_path default_path default_exists /\
  (forall p,
      KubeconfigLocator.resolve explicit_path env_path default_path default_exists
      = Some p -> truthy p = true) /\
  (KubeconfigLocator.resolve explicit_path env_path default_path default_exists
   = None <->
   truthy (or_empty explicit_path) = false /\
   truthy (or_empty env_path) = false /\
   default_exists = false).
Proof.
  intros Hd. unfold KubeconfigLocator.resolve.
  destruct explicit_path as [[|c e]|], env_path as [[|c' v]|],
    default_exists; cbn [or_empty truthy];
    try rewrite Hd; cbn [or_empty truthy];
    (split; [reflexivity|]; split;
     [intros p [= <-]; first [reflexivity | exact Hd]
     |split; [try discriminate; auto|intros (? & ? & ?); discriminate || reflexivity]]).
Qed.

Lemma resolve_settled_witness :
  KubeconfigLocator.resolve
    (KubeconfigLocator.resolve (Some "") (Some "/etc/kube/admin.conf")
       "/home/op/.kube/config" true)
    (Some "/etc/kube/admin.conf") "/home/op/.kube/config" true
  = KubeconfigLocator.resolve (Some "") (Some "/etc/kube/admin.conf")
      "/home/op/.kube/config" true /\
  (forall p,
      KubeconfigLocator.resolve (Some "") (Some "/etc/kube/admin.conf")
        "/home/op/.kube/config" true
      = Some p -> truthy p = true) /\
  (KubeconfigLocator.resolve (Some "") (Some "/etc/kube/admin.conf")
     "/home/op/.kube/config" true
   = None <->
   truthy (or_empty (Some "")) = false /\
   truthy (or_empty (Some "/etc/kube/admin.conf")) = false /\
   true = false).
Proof.
  apply (resolve_settled (Some "") (Some "/etc/kube/admin.conf")
           "/home/op/.kube/config" true).
  reflexivity.
Defined.
